(** * openapi-mcp: the spec-to-operation compiler and the request executor

    A shallow embedding of [index.js] and the properties its specification
    states about it.

    Conventions of the embedding.
    - A JavaScript string is a [string]: one character per UTF-16 code unit,
      for the strings whose code units lie in U+0000..U+00FF.
    - A JavaScript number is a [Z]: the integers that JavaScript prints in
      plain decimal notation.
    - A plain object is the list of its own enumerable properties in the
      order in which [Object.entries] enumerates them.
    - A call that can throw returns a [result]; the web platform services
      whose behaviour the program does not decide (the URL parser, the JSON
      parser, the network) are variables of the sections that use them. *)

From Stdlib Require Import ZArith Ascii String DecimalString DecimalZ DecimalPos Lia.
From stdpp Require Import base strings list gmap.

Set Warnings "-register-all".

(** ** The JavaScript runtime fragment the program relies on *)
Module JS.

(** [!s] for a string [s]. *)
Definition is_empty (s : string) : bool :=
  match s with "" => true | String _ _ => false end.

(** [s.startsWith(p)]. *)
Definition startsWith (s p : string) : bool := String.prefix p s.

(** [s.endsWith(p)]: [p] is [s] or ends a tail of [s]. *)
Fixpoint endsWith (s p : string) : bool :=
  String.eqb s p ||
  match s with "" => false | String _ r => endsWith r p end.

(** [s.slice(n)] for [n >= 0]. *)
Fixpoint slice_from (n : nat) (s : string) : string :=
  match n, s with
  | O, _ => s
  | S _, "" => ""
  | S m, String _ r => slice_from m r
  end.

(** [s.slice(0, n)]. *)
Fixpoint slice_to (n : nat) (s : string) : string :=
  match n, s with
  | O, _ => ""
  | S _, "" => ""
  | S m, String c r => String c (slice_to m r)
  end.

(** [s.includes(p)]. *)
Fixpoint includes (s p : string) : bool :=
  String.prefix p s ||
  match s with "" => false | String _ r => includes r p end.

(** [Math.max] and [Math.min] on integers. *)
Definition Math_max (a b : Z) : Z := Z.max a b.
Definition Math_min (a b : Z) : Z := Z.min a b.

(** [x || d] for an optional number [x]: [undefined] and [0] are falsy. *)
Definition num_or (x : option Z) (d : Z) : Z :=
  match x with
  | Some z => if Z.eqb z 0 then d else z
  | None => d
  end.

(** [x || d] for an optional string [x]: [undefined] and [""] are falsy. *)
Definition str_or (x : option string) (d : string) : string :=
  match x with
  | Some s => if is_empty s then d else s
  | None => d
  end.

(** *** Values *)

(** The values the program reads from parsed JSON and from its caller. *)
Inductive value : Type :=
  | VUndefined
  | VNull
  | VBool (b : bool)
  | VNum (z : Z)
  | VStr (s : string)
  | VArr (xs : list value)
  | VObj (ps : list (string * value)).

(** Truthiness, as tested by [if (v)], [!v], [v || d] and [v ? a : b]. *)
Definition truthy (v : value) : bool :=
  match v with
  | VUndefined | VNull => false
  | VBool b => b
  | VNum z => negb (Z.eqb z 0)
  | VStr s => negb (is_empty s)
  | VArr _ | VObj _ => true
  end.

(** [v == null], true of [null] and [undefined] only. *)
Definition is_nullish (v : value) : bool :=
  match v with VUndefined | VNull => true | _ => false end.

(** [Array.isArray(v)]. *)
Definition isArray (v : value) : bool :=
  match v with VArr _ => true | _ => false end.

(** [typeof v === "object"]: objects, arrays and [null]. *)
Definition typeof_object (v : value) : bool :=
  match v with VNull | VArr _ | VObj _ => true | _ => false end.

(** The own property [k] of a property list. *)
Fixpoint lookup_own {A : Type} (k : string) (ps : list (string * A)) : option A :=
  match ps with
  | [] => None
  | (k', x) :: r => if String.eqb k' k then Some x else lookup_own k r
  end.

(** [v.k] and [v?.k] for the property names the program reads ([info],
    [title], [paths], [servers], [url], [swagger], [host], [basePath],
    [schemes], [operationId] and the method names): none of them is defined
    on a built-in prototype, so only a plain object can answer. *)
Definition prop (k : string) (v : value) : value :=
  match v with
  | VObj ps => default VUndefined (lookup_own k ps)
  | _ => VUndefined
  end.

(** [v[0]] and [v?.[0]] for an array [v]. *)
Definition first (v : value) : value :=
  match v with
  | VArr (x :: _) => x
  | _ => VUndefined
  end.

(** [String(z)] for a number: its decimal digits, after a minus sign for
    a negative one. *)
Definition numberToString (z : Z) : string :=
  NilZero.string_of_int (Z.to_int z).

(** [Object.entries(v)] for a non-null [typeof "object"] value: an array
    lists its elements under their indices. *)
Definition entries (v : value) : list (string * value) :=
  match v with
  | VObj ps => ps
  | VArr xs => imap (fun i x => (numberToString (Z.of_nat i), x)) xs
  | _ => []
  end.

(** [String(v)]. *)
Fixpoint ToString (v : value) : string :=
  match v with
  | VUndefined => "undefined"
  | VNull => "null"
  | VBool true => "true"
  | VBool false => "false"
  | VNum z => numberToString z
  | VStr s => s
  | VArr xs =>
      String.concat ","
        (map (fun x => match x with
                       | VUndefined | VNull => ""
                       | _ => ToString x
                       end) xs)
  | VObj _ => "[object Object]"
  end.

(** *** Characters *)

Definition code (c : ascii) : N := N_of_ascii c.

Definition in_range (lo hi : N) (c : ascii) : bool :=
  (lo <=? code c)%N && (code c <=? hi)%N.

Definition is_upper (c : ascii) : bool := in_range 65 90 c.
Definition is_lower (c : ascii) : bool := in_range 97 122 c.
Definition is_digit (c : ascii) : bool := in_range 48 57 c.

Definition hexDigitOf (digits : string) (n : N) : ascii :=
  default "0"%char (String.get (N.to_nat n) digits).

Definition hexUpper : N -> ascii := hexDigitOf "0123456789ABCDEF".
Definition hexLower : N -> ascii := hexDigitOf "0123456789abcdef".

(** [s.toLowerCase()]: within U+0000..U+00FF the letters with a lower-case
    form are A-Z and U+00C0..U+00DE without the multiplication sign. *)
Definition lowerChar (c : ascii) : ascii :=
  if is_upper c || (in_range 192 222 c && negb (N.eqb (code c) 215))
  then ascii_of_N (code c + 32)
  else c.

Fixpoint toLowerCase (s : string) : string :=
  match s with
  | "" => ""
  | String c r => String (lowerChar c) (toLowerCase r)
  end.

(** *** encodeURIComponent *)

(** The characters that [encodeURIComponent] leaves alone. *)
Definition is_unreserved (c : ascii) : bool :=
  is_upper c || is_lower c || is_digit c ||
  includes "-_.!~*'()" (String c "").

Definition pct (n : N) : string :=
  String "%" (String (hexUpper (n / 16)) (String (hexUpper (n mod 16)) "")).

(** One code unit: kept, or the percent-encoded bytes of its UTF-8 form
    (one byte below U+0080, two bytes from there to U+00FF). *)
Definition encodeChar (c : ascii) : string :=
  if is_unreserved c then String c ""
  else if (code c <? 128)%N then pct (code c)
  else pct (192 + code c / 64) +:+ pct (128 + code c mod 64).

Fixpoint encodeURIComponent (s : string) : string :=
  match s with
  | "" => ""
  | String c r => encodeChar c +:+ encodeURIComponent r
  end.

(** *** JSON.stringify *)

(** QuoteJSONString, character by character. *)
Definition quoteChar (c : ascii) : string :=
  match code c with
  | 8%N => "\b"
  | 9%N => "\t"
  | 10%N => "\n"
  | 12%N => "\f"
  | 13%N => "\r"
  | 34%N => String "\" (String c "")
  | 92%N => "\\"
  | n =>
      if (n <? 32)%N
      then "\u00" +:+ String (hexLower (n / 16)) (String (hexLower (n mod 16)) "")
      else String c ""
  end.

Fixpoint quoteBody (s : string) : string :=
  match s with
  | "" => ""
  | String c r => quoteChar c +:+ quoteBody r
  end.

Definition dquote : string := String (ascii_of_N 34) "".

Definition quoteJSON (s : string) : string := dquote +:+ quoteBody s +:+ dquote.

(** [JSON.stringify(v)]: [None] is the result [undefined]. An array prints
    [null] for an element without a JSON form, an object leaves such a
    property out. *)
Fixpoint JSON_stringify (v : value) : option string :=
  match v with
  | VUndefined => None
  | VNull => Some "null"
  | VBool true => Some "true"
  | VBool false => Some "false"
  | VNum z => Some (numberToString z)
  | VStr s => Some (quoteJSON s)
  | VArr xs =>
      Some ("[" +:+ String.concat ","
              (map (fun x => default "null" (JSON_stringify x)) xs) +:+ "]")
  | VObj ps =>
      Some ("{" +:+ String.concat ","
              (omap (fun p => match JSON_stringify (snd p) with
                              | Some t => Some (quoteJSON (fst p) +:+ ":" +:+ t)
                              | None => None
                              end) ps) +:+ "}")
  end.

(** *** Exceptions *)

(** A thrown error object: its [name] and its [message]. *)
Record error : Type := mkError { ename : string; message : string }.

Inductive result (A : Type) : Type :=
  | Ok (a : A)
  | Throw (e : error).
Arguments Ok {A} a.
Arguments Throw {A} e.

(** [e?.message || e] inside a template literal: the message, or for an
    empty message the text of the error, which is then its name. *)
Definition describe (e : error) : string :=
  if is_empty (message e) then ename e else message e.

(** *** Plain objects used as maps, and the prototype behind them *)

(** The properties every plain object inherits from [Object.prototype]. *)
Definition Object_prototype : list string :=
  [ "constructor"; "__defineGetter__"; "__defineSetter__"; "hasOwnProperty";
    "__lookupGetter__"; "__lookupSetter__"; "isPrototypeOf";
    "propertyIsEnumerable"; "toString"; "valueOf"; "__proto__";
    "toLocaleString" ].

Definition inherited (name : string) : bool :=
  existsb (String.eqb name) Object_prototype.

(** [name in o] for a plain object [o]: own properties, then the chain. *)
Definition has_property {A : Type} (name : string) (o : list (string * A)) : bool :=
  match lookup_own name o with
  | Some _ => true
  | None => inherited name
  end.

(** [String(f)] for a built-in function [f]. *)
Definition nativeFunctionText (fname : string) : string :=
  "function " +:+ fname +:+ "() { [native code] }".

(** [String(o[name])] for a record of strings [o] and a [name in o]: an own
    string, or what the prototype answers (its methods, [Object] for
    [constructor], the prototype itself for [__proto__]). *)
Definition get_string (name : string) (o : list (string * string)) : string :=
  match lookup_own name o with
  | Some s => s
  | None =>
      if String.eqb name "__proto__" then "[object Object]"
      else if String.eqb name "constructor" then nativeFunctionText "Object"
      else nativeFunctionText name
  end.

End JS.

(** ** Utilities of index.js *)

(** [joinUrl(base, path)], index.js lines 57-65. *)
Definition joinUrl (base path : string) : string :=
  if JS.is_empty base then path
  else if JS.is_empty path then base
  else
    let hasTrailing := JS.endsWith base "/" in
    let hasLeading := JS.startsWith path "/" in
    if hasTrailing && hasLeading then base +:+ JS.slice_from 1 path
    else if negb hasTrailing && negb hasLeading then base +:+ "/" +:+ path
    else base +:+ path.

(** The delay handed to [setTimeout], index.js line 295:
    [Math.min(Math.max(timeoutMs || 30000, 1), 300000)]. *)
Definition effectiveTimeout (timeoutMs : option Z) : Z :=
  JS.Math_min (JS.Math_max (JS.num_or timeoutMs 30000) 1) 300000.

(** The HTTP methods looked up in a path item, index.js lines 32-41. *)
Definition METHODS : list string :=
  ["get"; "put"; "post"; "delete"; "options"; "head"; "patch"; "trace"].

(** *** Matches of [/\{([^}]+)\}/g] *)

(** A template read left to right: a character outside every match, or a
    match with the name it captured. *)
Inductive piece : Type :=
  | Lit (c : ascii)
  | Tok (name : string).

(** The longest run of characters other than the closing brace, and the
    rest of the string. *)
Fixpoint spanName (s : string) : string * string :=
  match s with
  | "" => ("", "")
  | String c r =>
      if Ascii.eqb c "}" then ("", s)
      else let (n, t) := spanName r in (String c n, t)
  end.

(** The pattern after its opening brace: a non-empty run, then the closing
    brace. The answer is the captured name and what follows the match. *)
Definition matchToken (s : string) : option (string * string) :=
  match spanName s with
  | (String c n, String _ t) => Some (String c n, t)
  | _ => None
  end.

Fixpoint tokenize_fuel (fuel : nat) (s : string) : list piece :=
  match fuel, s with
  | O, _ => []
  | S _, "" => []
  | S f, String c r =>
      if Ascii.eqb c "{" then
        match matchToken r with
        | Some (name, t) => Tok name :: tokenize_fuel f t
        | None => Lit c :: tokenize_fuel f r
        end
      else Lit c :: tokenize_fuel f r
  end.

(** All matches, leftmost first and without overlap, as the global flag
    finds them. *)
Definition tokenize (s : string) : list piece :=
  tokenize_fuel (String.length s) s.

(** The names of the tokens of a template. *)
Definition tokens (s : string) : list string :=
  omap (fun p => match p with Tok n => Some n | Lit _ => None end) (tokenize s).

(** [s.replace(/\{([^}]+)\}/g, f)] for a callback [f] that may throw: the
    callback runs on the matches from left to right and the first throw
    ends the call. *)
Fixpoint replacePieces (f : string -> JS.result string) (ps : list piece)
  : JS.result string :=
  match ps with
  | [] => JS.Ok ""
  | Lit c :: r =>
      match replacePieces f r with
      | JS.Ok t => JS.Ok (String c t)
      | JS.Throw e => JS.Throw e
      end
  | Tok name :: r =>
      match f name with
      | JS.Throw e => JS.Throw e
      | JS.Ok v =>
          match replacePieces f r with
          | JS.Ok t => JS.Ok (v +:+ t)
          | JS.Throw e => JS.Throw e
          end
      end
  end.

(** [new Error(`Missing required path parameter: ${name}`)]. *)
Definition missingParameter (name : string) : JS.error :=
  JS.mkError "Error" ("Missing required path parameter: " +:+ name).

(** The callback of [fillPathParams], index.js lines 71-77. *)
Definition fillParam (pathParams : list (string * string)) (name : string)
  : JS.result string :=
  if negb (JS.has_property name pathParams) then JS.Throw (missingParameter name)
  else JS.Ok (JS.encodeURIComponent (JS.get_string name pathParams)).

(** [fillPathParams(path, pathParams = {})], index.js lines 70-78;
    [pathParams] is [None] when the caller passes none. *)
Definition fillPathParams (path : string) (pathParams : option (list (string * string)))
  : JS.result string :=
  replacePieces (fillParam (default [] pathParams)) (tokenize path).

(** [Array.isArray(v) && v.length > 0]. *)
Definition nonEmptyArray (v : JS.value) : bool :=
  match v with JS.VArr (_ :: _) => true | _ => false end.

(** The OpenAPI v3 branch: the url of the first server when it is a
    non-empty string; otherwise control falls through. *)
Definition serversUrl (spec : JS.value) : option string :=
  if JS.truthy spec && nonEmptyArray (JS.prop "servers" spec) then
    match JS.prop "url" (JS.first (JS.prop "servers" spec)) with
    | JS.VStr url => if JS.is_empty url then None else Some url
    | _ => None
    end
  else None.

(** [v || ""] inside a template literal. *)
Definition textOr (v : JS.value) : string :=
  if JS.truthy v then JS.ToString v else "".

(** [Array.isArray(spec.schemes) && spec.schemes.length > 0 ?
    spec.schemes[0] : "https"], as the template literal prints it. *)
Definition schemeOf (spec : JS.value) : string :=
  if nonEmptyArray (JS.prop "schemes" spec)
  then JS.ToString (JS.first (JS.prop "schemes" spec))
  else "https".

(** The Swagger v2 branch, and the final empty string. *)
Definition swaggerUrl (spec : JS.value) : string :=
  if JS.truthy spec && JS.truthy (JS.prop "swagger" spec) &&
     (JS.truthy (JS.prop "host" spec) || JS.truthy (JS.prop "basePath" spec))
  then
    let scheme := schemeOf spec in
    let host := textOr (JS.prop "host" spec) in
    let basePath := textOr (JS.prop "basePath" spec) in
    scheme +:+ "://" +:+ host +:+ basePath
  else "".

(** [resolveBaseUrl(spec)], index.js lines 83-98. *)
Definition resolveBaseUrl (spec : JS.value) : string :=
  match serversUrl spec with
  | Some url => url
  | None => swaggerUrl spec
  end.

(** The class [[a-z0-9]]. *)
Definition is_alnum_lower (c : ascii) : bool := JS.is_lower c || JS.is_digit c.

(** [.replace(/[^a-z0-9]+/g, "-")]: [inrun] tells that the run of other
    characters we are in has already produced its dash. *)
Fixpoint collapseRuns (inrun : bool) (s : string) : string :=
  match s with
  | "" => ""
  | String c r =>
      if is_alnum_lower c then String c (collapseRuns false r)
      else if inrun then collapseRuns true r
      else String "-" (collapseRuns true r)
  end.

(** [.replace(/^-+/, "")]. *)
Fixpoint dropLeadingDashes (s : string) : string :=
  match s with
  | String c r => if Ascii.eqb c "-" then dropLeadingDashes r else s
  | "" => ""
  end.

(** [.replace(/-+$/, "")]. *)
Fixpoint dropTrailingDashes (s : string) : string :=
  match s with
  | "" => ""
  | String c r =>
      match dropTrailingDashes r with
      | "" => if Ascii.eqb c "-" then "" else String c ""
      | t => String c t
      end
  end.

(** [slugify(s)], index.js lines 46-52, on the string [String(s)]. *)
Definition slugify (s : string) : string :=
  JS.slice_to 120
    (dropTrailingDashes (dropLeadingDashes (collapseRuns false (JS.toLowerCase s)))).

(** [rawPath.replace(/\{([^}]+)\}/g, "$1")]: every token loses its braces. *)
Definition stripBraces (rawPath : string) : string :=
  match replacePieces JS.Ok (tokenize rawPath) with
  | JS.Ok t => t
  | JS.Throw _ => rawPath
  end.

(** [`${base}-${i}`]. *)
Definition suffixed (base : string) (i : nat) : string :=
  base +:+ "-" +:+ JS.numberToString (Z.of_nat i).

(** The loop of [makeUniqueName], index.js lines 145-149, entered with the
    current [name] and the next suffix [i]; [fuel] bounds the iterations
    left after this test. *)
Fixpoint nextFree (fuel : nat) (base name : string) (i : nat) (used : gset string)
  : option string :=
  if bool_decide (name ∈ used) then
    match fuel with
    | O => None
    | S f => nextFree f base (suffixed base i) (S i) used
    end
  else Some name.

(** [makeUniqueName(base, used)], index.js lines 144-152: the name
    returned and the set [used] after [used.add(name)]. One more iteration
    than [used] has names is always enough ([nextFree_total] below). *)
Definition makeUniqueName (base : string) (used : gset string)
  : option (string * gset string) :=
  name ← nextFree (size used) base base 2 used;
  Some (name, {[name]} ∪ used).

(** The allocator run over a sequence of proposed names. *)
Fixpoint allocate (bases : list string) (used : gset string) : option (list string) :=
  match bases with
  | [] => Some []
  | b :: r =>
      '(name, used') ← makeUniqueName b used;
      names ← allocate r used';
      Some (name :: names)
  end.

(** ** Web platform objects *)

(** A parsed URL: the components the program reads, its query as the list
    behind [url.searchParams], and the remaining components as one text. *)
Record URL : Type := mkURL {
  hostname : string;
  pathname : string;
  searchParams : list (string * string);
  url_rest : string
}.

(** [searchParams.append(k, v)]. *)
Definition sp_append (k v : string) (ps : list (string * string)) : list (string * string) :=
  ps ++ [(k, v)].

(** [searchParams.set(k, v)]: the first entry named [k] takes the value and
    the later ones go; without such an entry the pair is appended. *)
Fixpoint sp_set (k v : string) (ps : list (string * string)) : list (string * string) :=
  match ps with
  | [] => [(k, v)]
  | (k', x) :: r =>
      if String.eqb k' k
      then (k, v) :: List.filter (fun p => negb (String.eqb (fst p) k)) r
      else (k', x) :: sp_set k v r
  end.

(** [searchParams.getAll(k)]. *)
Definition sp_getAll (k : string) (ps : list (string * string)) : list string :=
  map snd (List.filter (fun p => String.eqb (fst p) k) ps).

(** A [Headers] object: names in lower case, one entry per name. *)
Definition Headers : Type := list (string * string).

(** Byte-lowercasing of a header name: only A-Z change. *)
Definition asciiLowerChar (c : ascii) : ascii :=
  if JS.is_upper c then ascii_of_N (JS.code c + 32) else c.

Fixpoint asciiLower (s : string) : string :=
  match s with
  | "" => ""
  | String c r => String (asciiLowerChar c) (asciiLower r)
  end.

(** Every character of [s] passes the test [f]. *)
Fixpoint forallChars (f : ascii -> bool) (s : string) : bool :=
  match s with
  | "" => true
  | String c r => f c && forallChars f r
  end.

(** A header name is a token: one or more of these characters. *)
Definition is_tchar (c : ascii) : bool :=
  JS.is_upper c || JS.is_lower c || JS.is_digit c ||
  JS.includes "!#$%&'*+-.^_`|~" (String c "").

Definition validHeaderName (name : string) : bool :=
  negb (JS.is_empty name) && forallChars is_tchar name.

(** A header value is normalized before it is stored: HTTP whitespace
    (tab, line feed, carriage return, space) goes from both ends. *)
Definition is_httpWhitespace (c : ascii) : bool :=
  match JS.code c with
  | 9%N | 10%N | 13%N | 32%N => true
  | _ => false
  end.

Fixpoint dropLeadingWs (s : string) : string :=
  match s with
  | String c r => if is_httpWhitespace c then dropLeadingWs r else s
  | "" => ""
  end.

Fixpoint dropTrailingWs (s : string) : string :=
  match s with
  | "" => ""
  | String c r =>
      match dropTrailingWs r with
      | "" => if is_httpWhitespace c then "" else String c ""
      | t => String c t
      end
  end.

Definition normalizeHeaderValue (v : string) : string :=
  dropTrailingWs (dropLeadingWs v).

(** A header value holds no NUL, line feed or carriage return. *)
Definition validHeaderValue (v : string) : bool :=
  forallChars (fun c => match JS.code c with
                        | 0%N | 10%N | 13%N => false
                        | _ => true
                        end) v.

(** [headers.get(name)], [None] for [null]. *)
Definition Headers_get (name : string) (h : Headers) : option string :=
  JS.lookup_own (asciiLower name) h.

(** The entry of a lower-case [name] is replaced, or added at the end. *)
Fixpoint Headers_put (name value : string) (h : Headers) : Headers :=
  match h with
  | [] => [(name, value)]
  | (n, x) :: r =>
      if String.eqb n name then (name, value) :: r
      else (n, x) :: Headers_put name value r
  end.

(** [headers.set(name, value)]: a [TypeError] for a name that is not a token
    or a value with a forbidden byte; otherwise the entry replaces the one
    of the same name, whatever its letter case. *)
Definition Headers_set (name value : string) (h : Headers) : JS.result Headers :=
  let v := normalizeHeaderValue value in
  if negb (validHeaderName name) then
    JS.Throw (JS.mkError "TypeError" "Headers.set: invalid header name")
  else if negb (validHeaderValue v) then
    JS.Throw (JS.mkError "TypeError" "Headers.set: invalid header value")
  else JS.Ok (Headers_put (asciiLower name) v h).

(** A completed HTTP response. [res_body] is the text of its body, [None]
    for a response without a body (the answer to HEAD, status 204 or 304).
    A body can be read once: [json()] and [text()] both consume it, and both
    reject with a [TypeError] when it has been consumed already (the "consume
    body" steps of the Fetch standard); a response without a body reads as
    empty every time. *)
Record Response : Type := mkResponse {
  status : Z;
  statusText : string;
  res_url : string;
  ok : bool;
  res_headers : Headers;
  res_body : option string;
  bodyUsed : bool
}.

(** The body is there and has been read. *)
Definition unusable (res : Response) : bool :=
  match res_body res with
  | Some _ => bodyUsed res
  | None => false
  end.

(** The response after its body has been read to the end. *)
Definition consumed (res : Response) : Response :=
  match res_body res with
  | Some _ =>
      mkResponse (status res) (statusText res) (res_url res) (ok res)
                 (res_headers res) (res_body res) true
  | None => res
  end.

(** The text a read of the body yields. *)
Definition bodyText (res : Response) : string := default "" (res_body res).

(** The error of a second read. *)
Definition bodyUnusable : JS.error :=
  JS.mkError "TypeError" "Body is unusable: Body has already been read".

(** [await res.text()]. *)
Definition res_text (res : Response) : JS.result string * Response :=
  if unusable res then (JS.Throw bodyUnusable, res)
  else (JS.Ok (bodyText res), consumed res).

(** What [parseResponse] returns: [{ kind, value }]. *)
Inductive parsed : Type :=
  | ParsedJson (v : JS.value)
  | ParsedText (t : string).

(** ** The request executor *)

(** The envelope of a completed call, index.js lines 312-319. *)
Record Info : Type := mkInfo {
  i_status : Z;
  i_statusText : string;
  i_url : string;
  i_ok : bool;
  i_headers : Headers;
  i_body : parsed
}.

(** The single item of [asTextContent(value)]: the string itself, or the
    envelope whose indented JSON text the item carries. *)
Inductive content : Type :=
  | TextContent (text : string)
  | InfoContent (info : Info).

(** How a call of the tool handler ends: it returns a result, or it
    rejects with an error that nothing in the handler caught. *)
Inductive outcome : Type :=
  | Returned (c : content)
  | Rejected (e : JS.error).

(** What the caller passes, index.js line 232; [in_body] is [VUndefined]
    for an absent body. *)
Record RequestInput : Type := mkInput {
  in_baseUrl : option string;
  in_method : option string;
  in_path : option string;
  in_pathParams : option (list (string * string));
  in_query : option (list (string * JS.value));
  in_headers : option (list (string * string));
  in_body : JS.value;
  in_timeoutMs : option Z
}.

(** What a registered tool closes over. *)
Record Tool : Type := mkTool {
  toolName : string;
  t_specUrl : string;
  t_method : string;
  t_rawPath : string;
  t_baseUrl : string
}.

(** The arguments of the one [fetch] call of an invocation; [req_timeout]
    is the delay after which the abort signal fires. *)
Record Request : Type := mkRequest {
  req_url : URL;
  req_method : string;
  req_headers : Headers;
  req_body : JS.value;
  req_timeout : Z
}.

(** One turn of the loop over [Object.entries(query)], index.js lines
    259-269. *)
Definition applyQueryEntry (ps : list (string * string)) (kv : string * JS.value)
  : list (string * string) :=
  let (k, v) := kv in
  match v with
  | JS.VUndefined | JS.VNull => ps
  | JS.VArr items =>
      fold_left (fun acc item => sp_append k (JS.ToString item) acc) items ps
  | JS.VObj _ => sp_set k (default "undefined" (JS.JSON_stringify v)) ps
  | _ => sp_set k (JS.ToString v) ps
  end.

Definition applyQuery (query : option (list (string * JS.value)))
  (ps : list (string * string)) : list (string * string) :=
  match query with
  | Some q => fold_left applyQueryEntry q ps
  | None => ps
  end.

Definition withSearchParams (u : URL) (ps : list (string * string)) : URL :=
  mkURL (hostname u) (pathname u) ps (url_rest u).

(** Lines 273-279: the default [Accept], then the caller's headers. *)
Fixpoint setAll (hs : list (string * string)) (h : Headers) : JS.result Headers :=
  match hs with
  | [] => JS.Ok h
  | (k, v) :: r =>
      match Headers_set k v h with
      | JS.Ok h' => setAll r h'
      | JS.Throw e => JS.Throw e
      end
  end.

Definition buildHeaders (headers : option (list (string * string))) : JS.result Headers :=
  match Headers_set "Accept" "application/json, */*;q=0.8" [] with
  | JS.Ok h => setAll (default [] headers) h
  | JS.Throw e => JS.Throw e
  end.

(** Lines 282-292: the headers after the body is prepared, and [fetchBody]. *)
Definition prepareBody (body : JS.value) (finalMethod : string) (hdrs : Headers)
  : JS.result (Headers * JS.value) :=
  if negb (JS.is_nullish body) && negb (String.eqb finalMethod "GET")
     && negb (String.eqb finalMethod "HEAD")
  then
    let explicitType := Headers_get "content-type" hdrs in
    match (if JS.is_empty (JS.str_or explicitType "")
           then Headers_set "content-type" "application/json" hdrs
           else JS.Ok hdrs) with
    | JS.Throw e => JS.Throw e
    | JS.Ok hdrs' =>
        if JS.includes (JS.str_or (Headers_get "content-type" hdrs') "") "application/json"
        then JS.Ok (hdrs',
                    match body with
                    | JS.VStr t => JS.VStr t
                    | _ => match JS.JSON_stringify body with
                           | Some t => JS.VStr t
                           | None => JS.VUndefined
                           end
                    end)
        else JS.Ok (hdrs', body)
    end
  else JS.Ok (hdrs, JS.VUndefined).

Definition fillError (e : JS.error) : content :=
  TextContent ("Error filling path params: " +:+ JS.describe e).

Definition invalidUrl (base : string) : content :=
  TextContent ("Invalid URL. Provide a valid baseUrl (current: '" +:+ base +:+
               "') or ensure the path is absolute.").

Definition requestFailed (e : JS.error) : content :=
  TextContent ("Request failed: " +:+ JS.describe e).

(** [baseUrlOverride || baseUrl || ""], index.js line 236. *)
Definition baseOf (tool : Tool) (input : RequestInput) : string :=
  JS.str_or (in_baseUrl input) (JS.str_or (Some (t_baseUrl tool)) "").

(** [pathOverride || rawPath], index.js line 237. *)
Definition rawOf (tool : Tool) (input : RequestInput) : string :=
  JS.str_or (in_path input) (t_rawPath tool).

Section Executor.

(** [s.toUpperCase()]. *)
Variable toUpperCase : string -> string.
(** [new URL(s)], [None] when the constructor throws. *)
Variable URL_parse : string -> option URL.
(** [JSON.parse(s)], [None] when it throws a [SyntaxError]. *)
Variable JSON_parse : string -> option JS.value.
(** The transport: the response of [fetch], or the error it rejects with. *)
Variable fetch : Request -> JS.result Response.

(** [await res.json()]: the body is read in full, then parsed. *)
Definition res_json (res : Response) : JS.result JS.value * Response :=
  if unusable res then (JS.Throw bodyUnusable, res)
  else
    match JSON_parse (bodyText res) with
    | Some v => (JS.Ok v, consumed res)
    | None => (JS.Throw (JS.mkError "SyntaxError" "Unexpected token in JSON"),
               consumed res)
    end.

Definition textOf (res : Response) : JS.result parsed * Response :=
  match res_text res with
  | (JS.Ok t, res') => (JS.Ok (ParsedText t), res')
  | (JS.Throw e, res') => (JS.Throw e, res')
  end.

(** [parseResponse(res)], index.js lines 127-139. *)
Definition parseResponse (res : Response) : JS.result parsed * Response :=
  let ctype := JS.str_or (Headers_get "content-type" (res_headers res)) "" in
  if JS.includes ctype "application/json" then
    match res_json res with
    | (JS.Ok json, res') => (JS.Ok (ParsedJson json), res')
    | (JS.Throw _, res') => textOf res'
    end
  else textOf res.

(** [(methodOverride || method).toUpperCase()], index.js line 234. *)
Definition finalMethodOf (tool : Tool) (input : RequestInput) : string :=
  toUpperCase (JS.str_or (in_method input) (t_method tool)).

(** The tool handler, index.js lines 230-324: how the call ends and the
    requests it handed to the transport. *)
Definition handler (tool : Tool) (input : RequestInput) : outcome * list Request :=
  let finalMethod := finalMethodOf tool input in
  let base := baseOf tool input in
  let raw := rawOf tool input in
  match fillPathParams raw (in_pathParams input) with
  | JS.Throw e => (Returned (fillError e), [])
  | JS.Ok fullPath =>
      match URL_parse (joinUrl base fullPath) with
      | None => (Returned (invalidUrl base), [])
      | Some parsedUrl =>
          let finalUrl :=
            withSearchParams parsedUrl
              (applyQuery (in_query input) (searchParams parsedUrl)) in
          match buildHeaders (in_headers input) with
          | JS.Throw e => (Rejected e, [])
          | JS.Ok hdrs0 =>
              match prepareBody (in_body input) finalMethod hdrs0 with
              | JS.Throw e => (Rejected e, [])
              | JS.Ok (hdrs, fetchBody) =>
                  let req := mkRequest finalUrl finalMethod hdrs fetchBody
                               (effectiveTimeout (in_timeoutMs input)) in
                  match fetch req with
                  | JS.Throw e => (Returned (requestFailed e), [req])
                  | JS.Ok res =>
                      match parseResponse res with
                      | (JS.Throw e, _) => (Rejected e, [req])
                      | (JS.Ok body, _) =>
                          (Returned (InfoContent
                             (mkInfo (status res) (statusText res) (res_url res)
                                     (ok res) (res_headers res) body)),
                           [req])
                      end
                  end
              end
          end
      end
  end.

End Executor.

(** ** The compiler: from documents to named tools *)

(** A cached document, index.js line 171. *)
Record SpecEntry : Type := mkSpecEntry {
  s_url : string;
  s_spec : JS.value;
  s_baseUrl : string;
  s_key : string
}.

(** An operation found in a document, before it is named. *)
Record Operation : Type := mkOperation {
  o_specUrl : string;
  o_method : string;
  o_rawPath : string;
  o_baseUrl : string
}.

(** [.replace(/\/(openapi|swagger)\.(json|yaml|yml)$/i, "")]. *)
Definition specSuffixes : list string :=
  [ "/openapi.json"; "/openapi.yaml"; "/openapi.yml";
    "/swagger.json"; "/swagger.yaml"; "/swagger.yml" ].

Definition stripSpecSuffix (p : string) : string :=
  match List.find (JS.endsWith (JS.toLowerCase p)) specSuffixes with
  | Some suffix => JS.slice_to (String.length p - String.length suffix) p
  | None => p
  end.

(** [.replace(/\//g, "-")]. *)
Fixpoint slashesToDashes (s : string) : string :=
  match s with
  | "" => ""
  | String c r => String (if Ascii.eqb c "/" then "-"%char else c) (slashesToDashes r)
  end.

(** [spec?.info?.title ? slugify(spec.info.title) : null]. *)
Definition titleSlug (spec : JS.value) : option string :=
  let title := JS.prop "title" (JS.prop "info" spec) in
  if JS.truthy title then Some (slugify (JS.ToString title)) else None.

(** [used.add(name)] over the tools registered so far. *)
Fixpoint registerAll (ops : list (string * Operation)) (used : gset string)
  : option (list Tool) :=
  match ops with
  | [] => Some []
  | (baseName, o) :: r =>
      '(name, used') ← makeUniqueName baseName used;
      tools ← registerAll r used';
      Some (mkTool name (o_specUrl o) (o_method o) (o_rawPath o) (o_baseUrl o) :: tools)
  end.

Section Compiler.

Variable toUpperCase : string -> string.
Variable URL_parse : string -> option URL.
(** The document behind a source URL: [fetch], the status check and
    [res.json()], [None] when one of them fails. *)
Variable fetchSpec : string -> option JS.value.

(** [getSpecKey(url, spec)], index.js lines 103-114. *)
Definition getSpecKey (url : string) (spec : JS.value) : string :=
  let byTitle := titleSlug spec in
  match URL_parse url with
  | Some u =>
      let byHost := slugify (hostname u) in
      let byPath := slugify (slashesToDashes (stripSpecSuffix (pathname u))) in
      let hostPath := if JS.is_empty byPath then byHost else byHost +:+ "-" +:+ byPath in
      JS.str_or byTitle (JS.str_or (Some hostPath) (slugify url))
  | None => JS.str_or byTitle (slugify url)
  end.

(** The proposed name of an operation, index.js lines 194-197. *)
Definition baseNameOf (specKey method rawPath : string) (op : JS.value) : string :=
  let opId :=
    if JS.truthy (JS.prop "operationId" op)
    then slugify (JS.ToString (JS.prop "operationId" op))
    else "" in
  let methodSlug := toUpperCase method in
  let pathSlug := slugify (stripBraces rawPath) in
  if negb (JS.is_empty opId) then specKey +:+ "." +:+ opId
  else specKey +:+ "." +:+ methodSlug +:+ "." +:+ JS.str_or (Some pathSlug) "root".

(** The loop over [METHODS] for one path item, index.js lines 188-198. *)
Definition operationsOfPath (e : SpecEntry) (entry : string * JS.value)
  : list (string * Operation) :=
  let (rawPath, pathItem) := entry in
  if negb (JS.truthy pathItem) || negb (JS.typeof_object pathItem) then []
  else
    omap (fun method =>
            let op := JS.prop method pathItem in
            if negb (JS.truthy op) then None
            else Some (baseNameOf (s_key e) method rawPath op,
                       mkOperation (s_url e) method rawPath (s_baseUrl e)))
         METHODS.

(** The loop over the paths of one document, index.js lines 181-187. *)
Definition operationsOfSpec (e : SpecEntry) : list (string * Operation) :=
  let paths := JS.prop "paths" (s_spec e) in
  if negb (JS.truthy paths) || negb (JS.typeof_object paths) then []
  else flat_map (operationsOfPath e) (JS.entries paths).

(** One callback of [urls.map(async (url) => ...)]: the entry it pushes. *)
Definition loadSpec (url : string) : option SpecEntry :=
  spec ← fetchSpec url;
  Some (mkSpecEntry url spec (resolveBaseUrl spec) (getSpecKey url spec)).

(** The array [specs] when the callbacks have all settled. Each callback
    pushes when its own fetch completes, so [specs] lists the documents in
    completion order: [order] names the positions of [urls] in the order in
    which their fetches complete. *)
Definition loadSpecs (urls : list string) (order : list nat) : list SpecEntry :=
  omap (fun i => url ← urls !! i; loadSpec url) order.

(** The operations in the order in which the loops reach them. *)
Definition operations (specs : list SpecEntry) : list (string * Operation) :=
  flat_map operationsOfSpec specs.

(** The tools [createServer] registers, in registration order. *)
Definition createServer (urls : list string) (order : list nat) : option (list Tool) :=
  registerAll (operations (loadSpecs urls order)) ∅.

End Compiler.


(** [toUpperCase] on the letters a-z, which is what it does to them. *)
Definition asciiUpperChar (c : ascii) : ascii :=
  if JS.is_lower c then ascii_of_N (JS.code c - 32) else c.

Fixpoint asciiUpper (s : string) : string :=
  match s with
  | "" => ""
  | String c r => String (asciiUpperChar c) (asciiUpper r)
  end.

(** ** The specification's own words, for comparison with the code *)

(** "timeoutMs clamped to the inclusive range [1, 300000] when given, and
    30000 when absent". *)
Definition clampedTimeout_spec (timeoutMs : option Z) : Z :=
  match timeoutMs with
  | Some t => Z.max 1 (Z.min t 300000)
  | None => 30000
  end.

Fixpoint slashes (k : nat) : string :=
  match k with
  | O => ""
  | S n => String "/" (slashes n)
  end.

(** "Exactly one separating slash appears at the junction": [r] is what is
    left of [base] without its trailing slashes, one slash, and what is left
    of [path] without its leading slashes. *)
Definition joinedWithOneSlash (base path r : string) : Prop :=
  ∃ b p : string,
    r = b +:+ "/" +:+ p ∧
    JS.endsWith b "/" = false ∧ JS.startsWith p "/" = false ∧
    (∃ k, base = b +:+ slashes k) ∧ (∃ k, path = slashes k +:+ p).


(** "Returns it unchanged if unseen; otherwise appends -2, -3, ... until an
    unused name is found": the names a run may return for the proposed
    names, starting from the set [used]. *)
Inductive allocated : gset string → list string → list string → Prop :=
  | allocated_nil (used : gset string) : allocated used [] []
  | allocated_unseen (used : gset string) (b : string) (bs ns : list string) :
      b ∉ used →
      allocated ({[b]} ∪ used) bs ns →
      allocated used (b :: bs) (b :: ns)
  | allocated_seen (used : gset string) (b : string) (i : nat) (bs ns : list string) :
      b ∈ used → 2 ≤ i → suffixed b i ∉ used →
      (∀ j, 2 ≤ j < i → suffixed b j ∈ used) →
      allocated ({[suffixed b i]} ∪ used) bs ns →
      allocated used (b :: bs) (suffixed b i :: ns).

(** "Replace every {name} token with the percent-encoded string form of
    pathParams[name]": the text a template becomes, piece by piece. *)
Fixpoint substitute (pathParams : list (string * string)) (ps : list piece) : string :=
  match ps with
  | [] => ""
  | Lit c :: r => String c (substitute pathParams r)
  | Tok name :: r =>
      JS.encodeURIComponent (JS.get_string name pathParams) +:+ substitute pathParams r
  end.

(** The pieces of a text without any token. *)
Fixpoint lits (s : string) : list piece :=
  match s with
  | "" => []
  | String c r => Lit c :: lits r
  end.

Definition is_brace (c : ascii) : bool := Ascii.eqb c "{" || Ascii.eqb c "}".

Definition braceFree (s : string) : bool := forallChars (fun c => negb (is_brace c)) s.

Definition noClose (s : string) : bool := forallChars (fun c => negb (Ascii.eqb c "}")) s.

(** The same input without a body. *)
Definition withoutBody (input : RequestInput) : RequestInput :=
  mkInput (in_baseUrl input) (in_method input) (in_path input) (in_pathParams input)
          (in_query input) (in_headers input) JS.VUndefined (in_timeoutMs input).


(** ** A small platform to run the model on

    Stand-ins for the services the sections above take as variables, used
    where a statement is evaluated on a concrete call: a URL parser that
    accepts what starts with a scheme and keeps the text, a JSON parser that
    knows one document, and a transport that answers every request. *)
Definition demo_URL_parse (s : string) : option URL :=
  if JS.startsWith s "http://" || JS.startsWith s "https://"
  then Some (mkURL "" "" [] s) else None.

Definition demo_JSON_parse (s : string) : option JS.value :=
  if String.eqb s "{}" then Some (JS.VObj []) else None.

Definition demo_response (contentType body : string) : Response :=
  mkResponse 200 "OK" "" true [("content-type", contentType)] (Some body) false.

Definition demo_fetch (req : Request) : JS.result Response :=
  JS.Ok (demo_response "application/json" "{}").

(** Three documents for the examples on naming: two share the title [k]
    and an operation identifier, the third has a title of its own. *)
Definition operationDoc (operationId : string) : JS.value :=
  JS.VObj [("get", JS.VObj [("operationId", JS.VStr operationId)])].

Definition docA : JS.value :=
  JS.VObj [ ("info", JS.VObj [("title", JS.VStr "k")]);
            ("paths", JS.VObj [("/p", operationDoc "x"); ("/q", operationDoc "x-2")]) ].

Definition docB : JS.value :=
  JS.VObj [ ("info", JS.VObj [("title", JS.VStr "k")]);
            ("paths", JS.VObj [("/r", operationDoc "x")]) ].

Definition docC : JS.value :=
  JS.VObj [ ("info", JS.VObj [("title", JS.VStr "other")]);
            ("paths", JS.VObj [("/r", operationDoc "x")]) ].

Definition demo_fetchSpec (url : string) : option JS.value :=
  if String.eqb url "http://a/openapi.json" then Some docA
  else if String.eqb url "http://b/openapi.json" then Some docB
  else if String.eqb url "http://c/openapi.json" then Some docC
  else None.


(** ** Bootstrap: the list of source URLs *)

(** The white space [String.prototype.trim] removes, among the code units
    up to U+00FF: tab, line feed, vertical tab, form feed, carriage return,
    space and the no-break space. *)
Definition is_whitespace (c : ascii) : bool :=
  match JS.code c with
  | 9%N | 10%N | 11%N | 12%N | 13%N | 32%N | 160%N => true
  | _ => false
  end.

Fixpoint trimStart (s : string) : string :=
  match s with
  | String c r => if is_whitespace c then trimStart r else s
  | "" => ""
  end.

Fixpoint trimEnd (s : string) : string :=
  match s with
  | "" => ""
  | String c r =>
      match trimEnd r with
      | "" => if is_whitespace c then "" else String c ""
      | t => String c t
      end
  end.

(** [s.trim()]. *)
Definition trim (s : string) : string := trimEnd (trimStart s).

(** [s.split(",")]: the pieces between the commas, one piece more than
    there are commas. *)
Fixpoint splitComma (s : string) : list string :=
  match s with
  | "" => [""]
  | String c r =>
      if Ascii.eqb c ","
      then "" :: splitComma r
      else match splitComma r with
           | piece :: pieces => String c piece :: pieces
           | [] => [String c ""]
           end
  end.

(** [(process.env.OPENAPI_URLS || "").split(",").map((s) => s.trim())
    .filter(Boolean)], index.js lines 343-346. *)
Definition envUrls (env : option string) : list string :=
  List.filter (fun u => negb (JS.is_empty u)) (map trim (splitComma (JS.str_or env ""))).

(** [/^(https?:)?\/\//i.test(s)]. *)
Definition looksLikeUrl (s : string) : bool :=
  JS.startsWith s "//" ||
  JS.startsWith (JS.toLowerCase s) "http://" ||
  JS.startsWith (JS.toLowerCase s) "https://".

(** [process.argv.slice(2).filter(...)], index.js lines 348-350. *)
Definition argUrls (argv : list string) : list string :=
  List.filter looksLikeUrl (drop 2 argv).

(** The loop of index.js lines 352-359: [seen] and [out] after it has
    gone through [us]. *)
Fixpoint dedupeInto (us : list string) (seen : gset string) (out : list string)
  : list string :=
  match us with
  | [] => out
  | u :: r =>
      if bool_decide (u ∈ seen) then dedupeInto r seen out
      else dedupeInto r ({[u]} ∪ seen) (out ++ [u])
  end.

(** [parseUrlsFromEnvAndArgs()], index.js lines 342-361, as a function of
    the environment variable and the argument vector it reads. *)
Definition parseUrlsFromEnvAndArgs (env : option string) (argv : list string)
  : list string :=
  dedupeInto (envUrls env ++ argUrls argv) ∅ [].

(** ** Shapes used in the statements below *)

(** A template put together again from its pieces. *)
Fixpoint untokenize (ps : list piece) : string :=
  match ps with
  | [] => ""
  | Lit c :: r => String c (untokenize r)
  | Tok name :: r => String "{" (name +:+ String "}" (untokenize r))
  end.

(** A character of a slug. *)
Definition is_slugChar (c : ascii) : bool := is_alnum_lower c || Ascii.eqb c "-".

(** No dash follows a dash. *)
Fixpoint noDoubleDash (s : string) : bool :=
  match s with
  | "" => true
  | String c r =>
      negb (Ascii.eqb c "-" && JS.startsWith r "-") && noDoubleDash r
  end.

(** The shape of a slug: its characters, no dash at the start, no dash
    after a dash. *)
Definition slugShape (s : string) : Prop :=
  forallChars is_slugChar s = true ∧ JS.startsWith s "-" = false ∧
  noDoubleDash s = true.

(** What a tool keeps of the operation it was registered for. *)
Definition operationOf (t : Tool) : Operation :=
  mkOperation (t_specUrl t) (t_method t) (t_rawPath t) (t_baseUrl t).

(** A tool registered for a proposed name and an operation: it keeps the
    operation, under the proposed name or that name with a suffix. *)
Definition registeredFor (t : Tool) (proposal : string * Operation) : Prop :=
  operationOf t = snd proposal ∧
  (toolName t = fst proposal ∨ ∃ i, 2 ≤ i ∧ toolName t = suffixed (fst proposal) i).

(** * Properties *)

Example joinUrl_plain : joinUrl "http://h/v1" "pets" = "http://h/v1/pets".
Proof. reflexivity. Qed.

Example joinUrl_both : joinUrl "http://h/v1/" "/pets" = "http://h/v1/pets".
Proof. reflexivity. Qed.

Example encode_demo :
  JS.encodeURIComponent "a b/{c}" = "a%20b%2F%7Bc%7D".
Proof. reflexivity. Qed.


Example slugify_demo : slugify "  Pet Store -- API (v2)! " = "pet-store-api-v2".
Proof. reflexivity. Qed.

Example tokens_demo : tokens "/a/{x}/{}{y}/{{z}" = ["x"; "y"; "{z"].
Proof. reflexivity. Qed.

Example allocate_demo :
  allocate ["x"; "x"; "x-2"; "x"] ∅ = Some ["x"; "x-2"; "x-2-2"; "x-3"].
Proof. vm_compute. reflexivity. Qed.

Example createServer_demo :
  let doc := JS.VObj [("info", JS.VObj [("title", JS.VStr "Petstore")]);
                      ("servers", JS.VArr [JS.VObj [("url", JS.VStr "https://api.example.com/v1")]]);
                      ("paths", JS.VObj [("/pets/{id}", JS.VObj [("get", JS.VObj [("operationId", JS.VStr "getPet")]);
                                                               ("delete", JS.VObj [])])])] in
  createServer asciiUpper (fun _ => None) (fun _ => Some doc) ["u"] [0]
  = Some [ mkTool "petstore.getpet" "u" "get" "/pets/{id}" "https://api.example.com/v1";
           mkTool "petstore.DELETE.pets-id" "u" "delete" "/pets/{id}" "https://api.example.com/v1" ].
Proof. vm_compute. reflexivity. Qed.

(** ** Strings *)

Local Arguments String.append : simpl nomatch.

Lemma append_nil_r (s : string) : s +:+ "" = s.
Proof. induction s as [|c s IH]; simpl; [done | by rewrite IH]. Qed.

Lemma append_assoc (a b c : string) : (a +:+ b) +:+ c = a +:+ b +:+ c.
Proof. induction a as [|x a IH]; simpl; [done | by rewrite IH]. Qed.

Lemma length_append (a b : string) :
  String.length (a +:+ b) = String.length a + String.length b.
Proof. induction a as [|x a IH]; simpl; [done | by rewrite IH]. Qed.

Lemma is_empty_true (s : string) : JS.is_empty s = true ↔ s = "".
Proof. destruct s; simpl; split; congruence. Qed.

Lemma is_empty_false (s : string) : JS.is_empty s = false ↔ s ≠ "".
Proof. destruct s; simpl; split; congruence. Qed.

Lemma prefix_spec (p s : string) :
  String.prefix p s = true ↔ ∃ r, s = p +:+ r.
Proof.
  revert s. induction p as [|c p IH]; intros [|d s]; simpl.
  - split; [by exists "" | done].
  - split; [by exists (String d s) | done].
  - split; [done | intros [r Hr]; discriminate].
  - destruct (ascii_dec c d) as [->|Hne].
    + rewrite IH. split; intros [r Hr]; exists r; simpl in *; congruence.
    + split; [done | intros [r Hr]; simpl in Hr; congruence].
Qed.

Lemma endsWith_unfold (c : ascii) (s p : string) :
  JS.endsWith (String c s) p = String.eqb (String c s) p || JS.endsWith s p.
Proof. reflexivity. Qed.

Lemma endsWith_spec (s p : string) :
  JS.endsWith s p = true ↔ ∃ a, s = a +:+ p.
Proof.
  split.
  - induction s as [|c s IH]; intros H.
    + destruct p; [by exists "" | discriminate].
    + rewrite endsWith_unfold in H. apply orb_true_iff in H as [H|H].
      * apply String.eqb_eq in H. by exists "".
      * destruct (IH H) as [a ->]. by exists (String c a).
  - intros [a ->]. induction a as [|c a IH].
    + change ("" +:+ p) with p. destruct p; [done|].
      by rewrite endsWith_unfold, String.eqb_refl.
    + change (String c a +:+ p) with (String c (a +:+ p)).
      rewrite endsWith_unfold, IH. apply orb_true_r.
Qed.

Lemma endsWith_false (s p : string) :
  JS.endsWith s p = false ↔ ∀ a, s ≠ a +:+ p.
Proof.
  split.
  - intros H a ->. assert (JS.endsWith (a +:+ p) p = true) by (apply endsWith_spec; eauto).
    congruence.
  - intros H. destruct (JS.endsWith s p) eqn:E; [|done].
    apply endsWith_spec in E as [a ->]. by destruct (H a).
Qed.

Lemma startsWith_false (s p : string) :
  JS.startsWith s p = false ↔ ∀ r, s ≠ p +:+ r.
Proof.
  unfold JS.startsWith. split.
  - intros H r ->. assert (String.prefix p (p +:+ r) = true) by (apply prefix_spec; eauto).
    congruence.
  - intros H. destruct (String.prefix p s) eqn:E; [|done].
    apply prefix_spec in E as [r ->]. by destruct (H r).
Qed.

(** ** URL joining (claim C8) *)

Lemma joinUrl_empty_base (path : string) : joinUrl "" path = path.
Proof. reflexivity. Qed.

Lemma joinUrl_empty_path (base : string) : joinUrl base "" = base.
Proof. by destruct base. Qed.

(** What the four branches compute on two non-empty strings: [base] without
    one trailing slash, a slash, [path] without one leading slash. *)
Lemma joinUrl_nonempty (base path : string) :
  base ≠ "" → path ≠ "" →
  ∃ b p, joinUrl base path = b +:+ "/" +:+ p ∧
         (base = b ∧ JS.endsWith base "/" = false ∨ base = b +:+ "/") ∧
         (path = p ∧ JS.startsWith path "/" = false ∨ path = "/" +:+ p).
Proof.
  intros Hb Hp. unfold joinUrl.
  apply is_empty_false in Hb, Hp. rewrite Hb, Hp.
  destruct (JS.endsWith base "/") eqn:Et; destruct (JS.startsWith path "/") eqn:El; simpl.
  - apply endsWith_spec in Et as [b ->]. apply prefix_spec in El as [p ->].
    exists b, p. rewrite append_assoc. simpl. split_and!; auto.
  - apply endsWith_spec in Et as [b ->].
    exists b, path. rewrite append_assoc. simpl. split_and!; auto.
  - apply prefix_spec in El as [p ->].
    exists base, p. simpl. split_and!; auto.
  - exists base, path. split_and!; auto.
Qed.

(** C8, as the code has it: two non-empty strings are joined with exactly
    one slash at the junction when [base] does not end with two slashes and
    [path] does not start with two; an empty [base] gives [path] and an empty
    [path] gives [base], unchanged. *)
Theorem joinUrl_one_slash (base path : string) :
  joinUrl "" path = path ∧ joinUrl base "" = base ∧
  (base ≠ "" → path ≠ "" →
   JS.endsWith base "//" = false → JS.startsWith path "//" = false →
   joinedWithOneSlash base path (joinUrl base path)).
Proof.
  split; [apply joinUrl_empty_base|]. split; [apply joinUrl_empty_path|].
  intros Hb Hp Ht Hl.
  destruct (joinUrl_nonempty base path Hb Hp) as (b & p & -> & Hbase & Hpath).
  exists b, p. split; [done|].
  assert (JS.endsWith b "/" = false) as Hb'.
  { destruct Hbase as [[<- ?]| ->]; [done|].
    apply endsWith_false. intros a ->.
    rewrite endsWith_false in Ht. apply (Ht a). by rewrite append_assoc. }
  assert (JS.startsWith p "/" = false) as Hp'.
  { destruct Hpath as [[<- ?]| ->]; [done|].
    apply startsWith_false. intros r ->.
    rewrite startsWith_false in Hl. by apply (Hl r). }
  repeat split; [done|done| |].
  - destruct Hbase as [[-> _]| ->]; [exists 0 | exists 1]; simpl; by rewrite ?append_nil_r.
  - destruct Hpath as [[-> _]| ->]; [exists 0 | exists 1]; done.
Qed.

Lemma joinUrl_one_slash_witness :
  joinedWithOneSlash "http://h/v1/" "/pets" (joinUrl "http://h/v1/" "/pets").
Proof.
  apply (joinUrl_one_slash "http://h/v1/" "/pets"); [discriminate | discriminate | reflexivity | reflexivity].
Defined.

(** C8 as stated fails: a base that ends with two slashes keeps one of them
    next to the separator. *)
Lemma joinUrl_keeps_second_slash :
  joinUrl "a//" "/b" = "a//b" ∧ ¬ joinedWithOneSlash "a//" "/b" (joinUrl "a//" "/b").
Proof.
  split; [reflexivity|].
  intros (b & p & Hr & Hb & Hp & [k Hk] & [k' Hk']).
  assert (b = "a") as ->.
  { clear -Hk Hb.
    destruct b as [|c0 [|c1 [|c2 [|c3 b]]]]; destruct k as [|[|[|[|k]]]];
      simplify_eq/=; done. }
  assert (p = "b") as ->.
  { clear -Hk' Hp. destruct k' as [|[|[|k']]]; simplify_eq/=; done. }
  discriminate.
Qed.

(** ** Timeout (claim C2) *)

Lemma effectiveTimeout_zero : effectiveTimeout (Some 0%Z) = 30000%Z.
Proof. reflexivity. Qed.

Lemma effectiveTimeout_range (timeoutMs : option Z) :
  (1 ≤ effectiveTimeout timeoutMs ≤ 300000)%Z.
Proof. unfold effectiveTimeout, JS.Math_min, JS.Math_max. lia. Qed.

(** C2, as the code has it: a given [timeoutMs] other than 0 is clamped to
    [1, 300000], an absent one gives 30000; and a [timeoutMs] of 0, which is
    falsy, gives the default 30000 too. *)
Theorem effectiveTimeout_clamps (timeoutMs : option Z) :
  (timeoutMs ≠ Some 0%Z → effectiveTimeout timeoutMs = clampedTimeout_spec timeoutMs) ∧
  (timeoutMs = Some 0%Z → effectiveTimeout timeoutMs = 30000%Z).
Proof.
  split.
  - intros Hz. destruct timeoutMs as [t|]; [|reflexivity].
    assert (t ≠ 0%Z) as Ht by congruence.
    unfold effectiveTimeout, clampedTimeout_spec, JS.Math_min, JS.Math_max, JS.num_or.
    apply Z.eqb_neq in Ht. rewrite Ht. lia.
  - intros ->. reflexivity.
Qed.

Lemma effectiveTimeout_clamps_witness :
  effectiveTimeout (Some (-5)%Z) = 1%Z ∧
  effectiveTimeout (Some 10000000%Z) = 300000%Z ∧
  effectiveTimeout None = 30000%Z.
Proof.
  split; [|split].
  - apply (proj1 (effectiveTimeout_clamps (Some (-5)%Z))). discriminate.
  - apply (proj1 (effectiveTimeout_clamps (Some 10000000%Z))). discriminate.
  - apply (proj1 (effectiveTimeout_clamps None)). discriminate.
Defined.

(** C2 as stated fails at 0: the code answers 30000, the clamp 1. *)
Lemma effectiveTimeout_zero_not_clamped :
  effectiveTimeout (Some 0%Z) = 30000%Z ∧ clampedTimeout_spec (Some 0%Z) = 1%Z ∧
  effectiveTimeout (Some 0%Z) ≠ clampedTimeout_spec (Some 0%Z).
Proof. repeat split. discriminate. Qed.

(** ** Base URL of a document (claim C6) *)






(** A servers list whose first entry has no usable url falls through to
    the Swagger fields. *)
Lemma resolveBaseUrl_falls_through :
  resolveBaseUrl
    (JS.VObj [("servers", JS.VArr [JS.VObj []]); ("swagger", JS.VStr "2.0");
              ("host", JS.VStr "h.example")])
  = "https://h.example".
Proof. reflexivity. Qed.

(** ** The name allocator (claim C4) *)

Lemma to_int_proper (z : Z) :
  Z.to_int z ≠ Decimal.Pos Decimal.Nil ∧ Z.to_int z ≠ Decimal.Neg Decimal.Nil.
Proof.
  destruct z as [|q|q]; simpl; split; try discriminate;
    intros [= H]; by apply Unsigned.to_uint_nonnil in H.
Qed.

Lemma numberToString_inj (x y : Z) :
  JS.numberToString x = JS.numberToString y → x = y.
Proof.
  unfold JS.numberToString. intros H. apply to_int_inj.
  destruct (to_int_proper x) as [Hx1 Hx2], (to_int_proper y) as [Hy1 Hy2].
  pose proof (NilZero.isi _ Hx1 Hx2) as Ex.
  pose proof (NilZero.isi _ Hy1 Hy2) as Ey.
  rewrite H in Ex. congruence.
Qed.

Lemma suffixed_inj (base : string) (i j : nat) :
  suffixed base i = suffixed base j → i = j.
Proof.
  unfold suffixed. intros H. apply (inj (String.app base)) in H.
  simpl in H. injection H as H. apply numberToString_inj in H. lia.
Qed.

Lemma suffixed_ne_base (base : string) (i : nat) : suffixed base i ≠ base.
Proof.
  unfold suffixed. intros H. apply (f_equal String.length) in H.
  rewrite length_append in H. simpl in H. lia.
Qed.

Lemma nextFree_unfold (fuel : nat) (base name : string) (i : nat) (used : gset string) :
  nextFree fuel base name i used =
    if bool_decide (name ∈ used) then
      match fuel with
      | O => None
      | S f => nextFree f base (suffixed base i) (S i) used
      end
    else Some name.
Proof. by destruct fuel. Qed.

(** What the loop returns is unused; it is the name it started with, or the
    first free one among the suffixed names from [i] on. *)
Lemma nextFree_Some (fuel : nat) (base name : string) (i : nat) (used : gset string)
    (n : string) :
  nextFree fuel base name i used = Some n →
  (n ∉ used) ∧
  (((name ∉ used) ∧ n = name) ∨
   (name ∈ used ∧ ∃ i', i ≤ i' ∧ n = suffixed base i' ∧
                        ∀ j, i ≤ j < i' → suffixed base j ∈ used)).
Proof.
  revert name i. induction fuel as [|f IH]; intros name i; rewrite nextFree_unfold;
    case_bool_decide as Hin; intros H; simplify_eq; try (split; [done | by left]).
  destruct (IH _ _ H) as [Hn [[Hs ->] | [Hs (i' & Hi & -> & Hall)]]].
  - split; [done|]. right. split; [done|]. exists i. split_and!; [lia | done | lia].
  - split; [done|]. right. split; [done|]. exists i'. split_and!; [lia | done |].
    intros j Hj. destruct (decide (j = i)) as [->|]; [done | apply Hall; lia].
Qed.

(** The loop runs out of fuel only after [fuel + 1] used names. *)
Lemma nextFree_None (fuel : nat) (base name : string) (i : nat) (used : gset string) :
  nextFree fuel base name i used = None →
  name ∈ used ∧ ∀ j, i ≤ j < i + fuel → suffixed base j ∈ used.
Proof.
  revert name i. induction fuel as [|f IH]; intros name i; rewrite nextFree_unfold;
    case_bool_decide as Hin; intros H; simplify_eq.
  - split; [done | lia].
  - destruct (IH _ _ H) as [Hs Hall]. split; [done|].
    intros j Hj. destruct (decide (j = i)) as [->|]; [done | apply Hall; lia].
Qed.

(** One more iteration than [used] has names is enough: the candidates
    [base], [base-2], ..., are pairwise different. *)
Lemma nextFree_total (base : string) (used : gset string) :
  ∃ name, nextFree (size used) base base 2 used = Some name.
Proof.
  destruct (nextFree (size used) base base 2 used) as [name|] eqn:E; [by exists name|].
  exfalso. apply nextFree_None in E as [Hb Hall].
  set (l := base :: (suffixed base <$> seq 2 (size used))).
  assert (NoDup l) as Hnd.
  { apply NoDup_cons. split.
    - intros (j & Hj & _)%list_elem_of_fmap. symmetry in Hj.
      by apply suffixed_ne_base in Hj.
    - apply NoDup_fmap_2; [intros ? ?; apply suffixed_inj | apply NoDup_seq]. }
  assert (list_to_set l ⊆ used) as Hsub.
  { intros x Hx. apply elem_of_list_to_set in Hx.
    apply elem_of_cons in Hx as [->|Hx]; [done|].
    apply list_elem_of_fmap in Hx as (j & -> & Hj). apply elem_of_seq in Hj.
    apply Hall. lia. }
  apply subseteq_size in Hsub. rewrite size_list_to_set in Hsub by done.
  unfold l in Hsub. simpl in Hsub. rewrite length_fmap, length_seq in Hsub. lia.
Qed.

(** [makeUniqueName] returns, adds what it returns to [used], and returns
    [base] when it is unused and otherwise the first unused [base-i]. *)
Lemma makeUniqueName_spec (base : string) (used : gset string) :
  ∃ name, makeUniqueName base used = Some (name, {[name]} ∪ used) ∧ (name ∉ used) ∧
    (((base ∉ used) ∧ name = base) ∨
     (base ∈ used ∧ ∃ i, 2 ≤ i ∧ name = suffixed base i ∧
                         ∀ j, 2 ≤ j < i → suffixed base j ∈ used)).
Proof.
  destruct (nextFree_total base used) as [name E]. exists name.
  unfold makeUniqueName. rewrite E. simpl. split; [done|].
  by apply nextFree_Some in E.
Qed.

Lemma allocate_allocated (bases : list string) (used : gset string) :
  ∃ names, allocate bases used = Some names ∧ allocated used bases names.
Proof.
  revert used. induction bases as [|b bs IH]; intros used.
  - exists []. split; [done | constructor].
  - destruct (makeUniqueName_spec b used) as (name & E & Hfresh & Hcase).
    destruct (IH ({[name]} ∪ used)) as (names & En & Hall).
    exists (name :: names). simpl. rewrite E. simpl. rewrite En. simpl.
    split; [done|].
    destruct Hcase as [[Hb ->] | [Hb (i & Hi & -> & Hmin)]].
    + by apply allocated_unseen.
    + by apply allocated_seen.
Qed.

Lemma allocated_fresh (used : gset string) (bases names : list string) :
  allocated used bases names →
  NoDup names ∧ (∀ n, n ∈ names → n ∉ used) ∧ length names = length bases.
Proof.
  induction 1 as [used | used b bs ns Hb _ (Hnd & Hout & Hlen)
                       | used b i bs ns Hb Hi Hfree Hmin _ (Hnd & Hout & Hlen)].
  - split_and!; [constructor | by intros n ?%elem_of_nil | done].
  - split_and!; [| |simpl; by rewrite Hlen].
    + apply NoDup_cons. split; [|done]. intros Hin. apply Hout in Hin. set_solver.
    + intros n [->|Hin]%elem_of_cons; [done|]. apply Hout in Hin. set_solver.
  - split_and!; [| |simpl; by rewrite Hlen].
    + apply NoDup_cons. split; [|done]. intros Hin. apply Hout in Hin. set_solver.
    + intros n [->|Hin]%elem_of_cons; [done|]. apply Hout in Hin. set_solver.
Qed.

Lemma allocated_functional (used : gset string) (bases ns1 ns2 : list string) :
  allocated used bases ns1 → allocated used bases ns2 → ns1 = ns2.
Proof.
  intros H1. revert ns2.
  induction H1 as [used | used b bs ns Hb _ IH
                        | used b i bs ns Hb Hi Hfree Hmin _ IH]; intros ns2 H2.
  - by inversion H2.
  - inversion H2; subst; [f_equal; by apply IH | done].
  - inversion H2 as [| | ? ? i' ? ns' Hb' Hi' Hfree' Hmin' Hrest]; subst; [done|].
    assert (i = i') as <-.
    { destruct (Nat.lt_trichotomy i i') as [Hlt|[->|Hlt]]; [|done|].
      - destruct Hfree. apply Hmin'. lia.
      - destruct Hfree'. apply Hmin. lia. }
    f_equal. by apply IH.
Qed.

(** C4: on every sequence of proposed names the allocator returns; each
    name is the proposed one when that is unused and otherwise the first
    unused one among base-2, base-3, ...; the names of a run are pairwise
    different; and they are the only names that rule allows, so the same
    sequence always gets the same names. *)
Theorem nameAllocator_correct (bases : list string) :
  ∃ names, allocate bases ∅ = Some names ∧
           allocated ∅ bases names ∧
           length names = length bases ∧
           NoDup names ∧
           ∀ names', allocated ∅ bases names' → names' = names.
Proof.
  destruct (allocate_allocated bases ∅) as (names & E & Hall).
  exists names. destruct (allocated_fresh _ _ _ Hall) as (Hnd & _ & Hlen).
  split_and!; [done..|].
  intros names' H'. by apply (allocated_functional ∅ bases).
Qed.

(** ** Path templates (claim C3) *)

Lemma noClose_cons (c : ascii) (r : string) :
  noClose (String c r) = negb (Ascii.eqb c "}") && noClose r.
Proof. reflexivity. Qed.

Lemma braceFree_cons (c : ascii) (r : string) :
  braceFree (String c r) = negb (is_brace c) && braceFree r.
Proof. reflexivity. Qed.

Lemma spanName_spec (s n t : string) :
  spanName s = (n, t) →
  s = n +:+ t ∧ noClose n = true ∧ (t = "" ∨ ∃ t', t = String "}" t').
Proof.
  revert n t. induction s as [|c r IH]; intros n t; simpl.
  - intros [= <- <-]. auto.
  - destruct (Ascii.eqb_spec c "}") as [->|Hc].
    + intros [= <- <-]. split_and!; [done | done | eauto].
    + destruct (spanName r) as [n' t'] eqn:E. intros [= <- <-].
      destruct (IH _ _ eq_refl) as (-> & Hn & Ht). split_and!; [done | | done].
      rewrite noClose_cons, Hn. by apply Ascii.eqb_neq in Hc as ->.
Qed.

Lemma spanName_noClose (s : string) : noClose s = true → spanName s = (s, "").
Proof.
  induction s as [|c r IH]; [done|]. rewrite noClose_cons.
  intros [Hc Hr]%andb_true_iff. apply negb_true_iff in Hc. simpl.
  by rewrite Hc, (IH Hr).
Qed.

Lemma matchToken_Some (s name t : string) :
  matchToken s = Some (name, t) →
  s = name +:+ String "}" t ∧ name ≠ "" ∧ noClose name = true.
Proof.
  unfold matchToken. destruct (spanName s) as [n u] eqn:E.
  apply spanName_spec in E as (-> & Hn & Hu).
  destruct n as [|c n]; [done|]. destruct u as [|d u]; [done|].
  intros [= <- <-]. destruct Hu as [|[u' [= -> ->]]]; [done|]. done.
Qed.

Lemma matchToken_None (s : string) :
  matchToken s = None → s = "" ∨ (∃ r, s = String "}" r) ∨ noClose s = true.
Proof.
  unfold matchToken. destruct (spanName s) as [n u] eqn:E.
  apply spanName_spec in E as (-> & Hn & Hu).
  destruct n as [|c n].
  - intros _. destruct Hu as [->|[u' ->]]; eauto.
  - destruct u as [|d u]; [|done]. intros _. rewrite append_nil_r. eauto.
Qed.

Lemma matchToken_intro (name t : string) :
  name ≠ "" → noClose name = true →
  matchToken (name +:+ String "}" t) = Some (name, t).
Proof.
  intros Hne Hn. unfold matchToken.
  assert (spanName (name +:+ String "}" t) = (name, String "}" t)) as ->.
  { clear Hne. induction name as [|c n IH]; [done|].
    rewrite noClose_cons in Hn. apply andb_true_iff in Hn as [Hc Hn].
    apply negb_true_iff in Hc. simpl. by rewrite Hc, (IH Hn). }
  by destruct name.
Qed.

Lemma matchToken_shorter (s name t : string) :
  matchToken s = Some (name, t) → String.length t < String.length s.
Proof.
  intros (-> & _ & _)%matchToken_Some. rewrite length_append. simpl. lia.
Qed.

Lemma tokenize_fuel_enough (f1 f2 : nat) (s : string) :
  String.length s ≤ f1 → String.length s ≤ f2 →
  tokenize_fuel f1 s = tokenize_fuel f2 s.
Proof.
  revert f2 s. induction f1 as [|f1 IH]; intros f2 s H1 H2.
  - destruct s; [by destruct f2 | simpl in H1; lia].
  - destruct s as [|c r]; [by destruct f2|].
    destruct f2 as [|f2]; [simpl in H2; lia|]. simpl in *.
    destruct (Ascii.eqb c "{"); [|f_equal; apply IH; lia].
    destruct (matchToken r) as [[name t]|] eqn:E; [|f_equal; apply IH; lia].
    apply matchToken_shorter in E. f_equal; apply IH; lia.
Qed.

(** The scan, one step at a time. *)
Lemma tokenize_cons (c : ascii) (r : string) :
  tokenize (String c r) =
    if Ascii.eqb c "{" then
      match matchToken r with
      | Some (name, t) => Tok name :: tokenize t
      | None => Lit c :: tokenize r
      end
    else Lit c :: tokenize r.
Proof.
  unfold tokenize. simpl.
  destruct (Ascii.eqb c "{"); [|done].
  destruct (matchToken r) as [[name t]|] eqn:E; [|done].
  apply matchToken_shorter in E. f_equal. apply tokenize_fuel_enough; lia.
Qed.

(** A token is found where one stands: after text without an opening
    brace, a non-empty name without a closing brace between two braces. *)
Lemma tokenize_token (pre name post : string) :
  forallChars (fun c => negb (Ascii.eqb c "{")) pre = true →
  name ≠ "" → noClose name = true →
  tokenize (pre +:+ String "{" (name +:+ String "}" post))
  = lits pre ++ Tok name :: tokenize post.
Proof.
  intros Hpre Hne Hn. induction pre as [|c pre IH]; simpl.
  - by rewrite tokenize_cons, matchToken_intro.
  - simpl in Hpre. apply andb_true_iff in Hpre as [Hc Hpre].
    apply negb_true_iff in Hc. rewrite tokenize_cons, Hc. by rewrite IH.
Qed.

Lemma tokenize_noClose (s : string) : noClose s = true → tokenize s = lits s.
Proof.
  induction s as [|c r IH]; [done|]. rewrite noClose_cons.
  intros [Hc Hr]%andb_true_iff. rewrite tokenize_cons, (IH Hr). simpl.
  destruct (Ascii.eqb c "{"); [|done].
  unfold matchToken. rewrite (spanName_noClose _ Hr). by destruct r.
Qed.

Lemma tokenize_braceFree_app (v t : string) :
  braceFree v = true → tokenize (v +:+ t) = lits v ++ tokenize t.
Proof.
  induction v as [|c v IH]; [done|]. rewrite braceFree_cons.
  intros [Hc Hv]%andb_true_iff. simpl. rewrite tokenize_cons, (IH Hv).
  unfold is_brace in Hc. apply negb_true_iff, orb_false_iff in Hc as [-> _]. done.
Qed.

Lemma lits_app (a b : string) : lits (a +:+ b) = lits a ++ lits b.
Proof. induction a as [|c a IH]; simpl; [done | by rewrite IH]. Qed.

Lemma replacePieces_lits (f : string → JS.result string) (s : string) :
  replacePieces f (lits s) = JS.Ok s.
Proof. induction s as [|c r IH]; simpl; [done | by rewrite IH]. Qed.

Lemma braceFree_app (a b : string) :
  braceFree (a +:+ b) = braceFree a && braceFree b.
Proof.
  induction a as [|c a IH]; [done|]. simpl.
  by rewrite !braceFree_cons, IH, andb_assoc.
Qed.

Lemma encodeChar_braceFree (c : ascii) : braceFree (JS.encodeChar c) = true.
Proof. destruct c as [[] [] [] [] [] [] [] []]; reflexivity. Qed.

(** A percent-encoded value holds no brace. *)
Lemma encodeURIComponent_braceFree (s : string) :
  braceFree (JS.encodeURIComponent s) = true.
Proof.
  induction s as [|c r IH]; simpl; [done|].
  by rewrite braceFree_app, encodeChar_braceFree, IH.
Qed.

(** Replacing the tokens by brace-free values leaves no token behind. *)
Lemma replacePieces_no_token (f : string → JS.result string) :
  (∀ name v, f name = JS.Ok v → braceFree v = true) →
  ∀ s r, replacePieces f (tokenize s) = JS.Ok r → tokenize r = lits r.
Proof.
  intros Hf s. remember (String.length s) as n eqn:Hn.
  assert (String.length s ≤ n) as Hlen by lia. clear Hn.
  revert s Hlen. induction n as [|n IH]; intros s Hlen r.
  { destruct s; [|simpl in Hlen; lia]. by intros [= <-]. }
  destruct s as [|c rest]; [by intros [= <-]|]. simpl in Hlen.
  rewrite tokenize_cons. destruct (Ascii.eqb_spec c "{") as [->|Hc].
  - destruct (matchToken rest) as [[name t]|] eqn:E.
    + simpl. destruct (f name) as [v|e] eqn:Ev; [|done].
      destruct (replacePieces f (tokenize t)) as [r'|e] eqn:Er; [|done].
      intros [= <-]. apply matchToken_shorter in E.
      rewrite tokenize_braceFree_app by eauto.
      rewrite (IH t) by (done || lia). by rewrite lits_app.
    + simpl. destruct (replacePieces f (tokenize rest)) as [r'|e] eqn:Er; [|done].
      intros [= <-]. rewrite tokenize_cons. simpl.
      assert (matchToken r' = None) as ->.
      { apply matchToken_None in E as [->|[[rest' ->]|Hnc]].
        - by injection Er as <-.
        - rewrite tokenize_cons in Er. simpl in Er.
          destruct (replacePieces f (tokenize rest')); [|done]. by injection Er as <-.
        - rewrite (tokenize_noClose _ Hnc), replacePieces_lits in Er.
          injection Er as <-. unfold matchToken.
          rewrite (spanName_noClose _ Hnc). by destruct rest. }
      f_equal. apply (IH rest); [lia | done].
  - simpl. destruct (replacePieces f (tokenize rest)) as [r'|e] eqn:Er; [|done].
    intros [= <-]. rewrite tokenize_cons.
    apply Ascii.eqb_neq in Hc as ->. simpl. f_equal. apply (IH rest); [lia | done].
Qed.

Lemma tokens_lits (s : string) :
  omap (λ p, match p with Tok n => Some n | Lit _ => None end) (lits s) = [].
Proof. induction s as [|c r IH]; [done | exact IH]. Qed.

Lemma fillParam_braceFree (pp : list (string * string)) (name v : string) :
  fillParam pp name = JS.Ok v → braceFree v = true.
Proof.
  unfold fillParam. destruct (JS.has_property name pp); simpl; [|done].
  intros [= <-]. apply encodeURIComponent_braceFree.
Qed.

Lemma replacePieces_missing (pp : list (string * string)) (ps : list piece) (name : string) :
  name ∈ omap (λ p, match p with Tok n => Some n | Lit _ => None end) ps →
  JS.has_property name pp = false →
  ∃ missing,
    missing ∈ omap (λ p, match p with Tok n => Some n | Lit _ => None end) ps ∧
    JS.has_property missing pp = false ∧
    replacePieces (fillParam pp) ps = JS.Throw (missingParameter missing).
Proof.
  intros Hin Hno. induction ps as [|[c|n] ps IH]; simpl in *.
  - by apply elem_of_nil in Hin.
  - destruct (IH Hin) as (m & Hm & Hmno & ->). eauto.
  - destruct (JS.has_property n pp) eqn:Hn.
    + apply elem_of_cons in Hin as [->|Hin]; [congruence|].
      destruct (IH Hin) as (m & Hm & Hmno & E). exists m.
      split_and!; [by right | done |].
      unfold fillParam at 1. rewrite Hn. simpl. by rewrite E.
    + exists n. split_and!; [by left | done |].
      unfold fillParam at 1. by rewrite Hn.
Qed.

Lemma replacePieces_covered (pp : list (string * string)) (ps : list piece) :
  (∀ name, name ∈ omap (λ p, match p with Tok n => Some n | Lit _ => None end) ps →
           JS.has_property name pp = true) →
  replacePieces (fillParam pp) ps = JS.Ok (substitute pp ps).
Proof.
  induction ps as [|[c|n] ps IH]; simpl; intros Hall.
  - done.
  - by rewrite (IH Hall).
  - unfold fillParam at 1. rewrite (Hall n) by by left. simpl.
    rewrite IH; [done|]. intros m Hm. apply Hall. by right.
Qed.

(** A token whose name is not a property of [pathParams] (neither an own
    entry nor inherited) makes the call throw, and the error names such a
    token: the first one from the left. *)
Lemma fillPathParams_missing (path : string) (pathParams : option (list (string * string)))
    (name : string) :
  name ∈ tokens path →
  JS.has_property name (default [] pathParams) = false →
  ∃ missing,
    missing ∈ tokens path ∧
    JS.has_property missing (default [] pathParams) = false ∧
    fillPathParams path pathParams = JS.Throw (missingParameter missing).
Proof. apply replacePieces_missing. Qed.

(** When every token names a property of [pathParams] the call returns the
    template with each token replaced by the percent-encoded value, and no
    token is left in it. *)
Lemma fillPathParams_covered (path : string) (pathParams : option (list (string * string))) :
  (∀ name, name ∈ tokens path → JS.has_property name (default [] pathParams) = true) →
  fillPathParams path pathParams
    = JS.Ok (substitute (default [] pathParams) (tokenize path)) ∧
  tokens (substitute (default [] pathParams) (tokenize path)) = [].
Proof.
  intros Hall. pose proof (replacePieces_covered _ _ Hall) as E.
  split; [done|]. unfold tokens.
  rewrite (replacePieces_no_token _ (fillParam_braceFree _) _ _ E).
  apply tokens_lits.
Qed.

Lemma has_property_own {A : Type} (name : string) (o : list (string * A)) (v : A) :
  JS.lookup_own name o = Some v → JS.has_property name o = true.
Proof. unfold JS.has_property. by intros ->. Qed.

Lemma has_property_false {A : Type} (name : string) (o : list (string * A)) :
  JS.has_property name o = false ↔ JS.lookup_own name o = None ∧ JS.inherited name = false.
Proof.
  unfold JS.has_property. destruct (JS.lookup_own name o); split; try done.
  - by intros [? _].
  - by intros [_ ?].
Qed.

Lemma get_string_own (name v : string) (o : list (string * string)) :
  JS.lookup_own name o = Some v → JS.get_string name o = v.
Proof. unfold JS.get_string. by intros ->. Qed.

(** ** The request executor (claims C3, C5, C7, C9, C10) *)


Lemma sp_getAll_filter_other (k k' : string) (ps : list (string * string)) :
  k' ≠ k →
  sp_getAll k' (List.filter (λ p, negb (String.eqb (fst p) k)) ps) = sp_getAll k' ps.
Proof.
  intros Hne. unfold sp_getAll. induction ps as [|[n x] ps IH]; simpl; [done|].
  destruct (String.eqb_spec n k) as [->|Hn]; simpl.
  - apply String.eqb_neq in Hne. by rewrite String.eqb_sym, Hne.
  - destruct (String.eqb n k'); simpl; by rewrite IH.
Qed.


(** [set(k, v)] leaves the values of every other key as they were. *)
Lemma sp_getAll_set_other (k k' v : string) (ps : list (string * string)) :
  k' ≠ k → sp_getAll k' (sp_set k v ps) = sp_getAll k' ps.
Proof.
  intros Hne. induction ps as [|[n x] ps IH]; simpl.
  - unfold sp_getAll. simpl. apply String.eqb_neq in Hne.
    by rewrite String.eqb_sym, Hne.
  - destruct (String.eqb_spec n k) as [->|Hn].
    + pose proof (sp_getAll_filter_other k k' ps Hne) as F.
      unfold sp_getAll in *. simpl. apply String.eqb_neq in Hne.
      by rewrite String.eqb_sym, Hne.
    + unfold sp_getAll in *. simpl. destruct (String.eqb n k'); simpl; by rewrite IH.
Qed.

Lemma fold_append (k : string) (items : list JS.value) (ps : list (string * string)) :
  fold_left (λ acc item, sp_append k (JS.ToString item) acc) items ps
  = ps ++ map (λ item, (k, JS.ToString item)) items.
Proof.
  revert ps. induction items as [|x items IH]; intros ps; simpl.
  - by rewrite app_nil_r.
  - rewrite IH. unfold sp_append. by rewrite <- app_assoc.
Qed.


(** The query of the specification's example: [{tags: ["a","b"], meta:
    {x: 1}, page: 2}]. *)
Example applyQuery_example :
  applyQuery (Some [ ("tags", JS.VArr [JS.VStr "a"; JS.VStr "b"]);
                     ("meta", JS.VObj [("x", JS.VNum 1)]);
                     ("page", JS.VNum 2) ]) []
  = [ ("tags", "a"); ("tags", "b");
      ("meta", "{" +:+ JS.dquote +:+ "x" +:+ JS.dquote +:+ ":1}");
      ("page", "2") ].
Proof. reflexivity. Qed.

(** A later scalar entry under a key replaces the earlier one; an array
    under the same key adds to it. *)
Example applyQuery_overwrite :
  applyQuery (Some [ ("page", JS.VNum 1); ("page", JS.VArr [JS.VNum 7; JS.VNum 8]);
                     ("size", JS.VNum 5); ("size", JS.VStr "9") ])
             [("page", "0"); ("page", "00")]
  = [ ("page", "1"); ("page", "7"); ("page", "8"); ("size", "9") ].
Proof. reflexivity. Qed.

Lemma prepareBody_get_head (body : JS.value) (finalMethod : string) (hdrs : Headers) :
  finalMethod = "GET" ∨ finalMethod = "HEAD" →
  prepareBody body finalMethod hdrs = JS.Ok (hdrs, JS.VUndefined).
Proof.
  unfold prepareBody. intros [-> | ->]; simpl; by rewrite ?andb_false_r.
Qed.

Section ExecutorProperties.

Variable toUpperCase : string → string.
Variable URL_parse : string → option URL.
Variable JSON_parse : string → option JS.value.
Variable fetch : Request → JS.result Response.

Local Abbreviation invoke := (handler toUpperCase URL_parse JSON_parse fetch).
Local Abbreviation normalize := (parseResponse JSON_parse).

(** A token that names no property of [pathParams] ends the invocation
    with the error text that names such a token, before any request. *)
Lemma handler_missing_parameter (tool : Tool) (input : RequestInput) (name : string) :
  name ∈ tokens (rawOf tool input) →
  JS.has_property name (default [] (in_pathParams input)) = false →
  ∃ missing,
    missing ∈ tokens (rawOf tool input) ∧
    JS.has_property missing (default [] (in_pathParams input)) = false ∧
    invoke tool input =
      (Returned (TextContent ("Error filling path params: Missing required path parameter: "
                              +:+ missing)), []).
Proof.
  intros Hin Hno.
  destruct (fillPathParams_missing _ _ _ Hin Hno) as (missing & Hm & Hmno & E).
  exists missing. split_and!; [done..|].
  unfold handler. simpl. by rewrite E.
Qed.

(** C5: when the filled path joined to the effective base URL does not
    parse as a URL, the invocation returns the text that tells the caller to
    provide a valid baseUrl, and hands no request to the transport. *)
Theorem handler_invalid_url (tool : Tool) (input : RequestInput) (fullPath : string) :
  fillPathParams (rawOf tool input) (in_pathParams input) = JS.Ok fullPath →
  URL_parse (joinUrl (baseOf tool input) fullPath) = None →
  invoke tool input =
    (Returned (TextContent ("Invalid URL. Provide a valid baseUrl (current: '"
                            +:+ baseOf tool input
                            +:+ "') or ensure the path is absolute.")), []).
Proof.
  intros Hfill Hparse. unfold handler. simpl. by rewrite Hfill, Hparse.
Qed.

(** The body of a response that says it is JSON and is JSON. *)
Lemma parseResponse_json (res : Response) (v : JS.value) :
  unusable res = false →
  JS.includes (JS.str_or (Headers_get "content-type" (res_headers res)) "")
              "application/json" = true →
  JSON_parse (bodyText res) = Some v →
  normalize res = (JS.Ok (ParsedJson v), consumed res).
Proof.
  intros Hu Hc Hp. unfold parseResponse, res_json.
  by rewrite Hc, Hu, Hp.
Qed.

(** The body of a response that does not say it is JSON: the raw text. *)
Lemma parseResponse_text (res : Response) :
  unusable res = false →
  JS.includes (JS.str_or (Headers_get "content-type" (res_headers res)) "")
              "application/json" = false →
  normalize res = (JS.Ok (ParsedText (bodyText res)), consumed res).
Proof.
  intros Hu Hc. unfold parseResponse, textOf, res_text.
  by rewrite Hc, Hu.
Qed.

(** A response that says it is JSON and has a body that is not: [res.json()]
    has consumed the body when the parse fails, so the [res.text()] of the
    fallback rejects, and so does [parseResponse]. *)
Lemma parseResponse_malformed (res : Response) (body : string) :
  res_body res = Some body →
  bodyUsed res = false →
  JS.includes (JS.str_or (Headers_get "content-type" (res_headers res)) "")
              "application/json" = true →
  JSON_parse body = None →
  normalize res = (JS.Throw bodyUnusable, consumed res).
Proof.
  intros Hb Hu Hc Hp.
  unfold parseResponse, res_json, textOf, res_text, unusable, bodyText, consumed.
  rewrite Hc, Hb, Hu. simpl. by rewrite Hp.
Qed.

(** A response that says it is JSON and has no body at all: the parse of
    the empty text fails and the fallback returns the empty text. *)
Lemma parseResponse_no_body (res : Response) :
  res_body res = None →
  JS.includes (JS.str_or (Headers_get "content-type" (res_headers res)) "")
              "application/json" = true →
  JSON_parse "" = None →
  normalize res = (JS.Ok (ParsedText ""), res).
Proof.
  intros Hb Hc Hp.
  unfold parseResponse, res_json, textOf, res_text, unusable, bodyText, consumed.
  rewrite Hc, Hb. simpl. rewrite Hp. by rewrite Hb.
Qed.

(** C10: when the effective method is GET or HEAD in upper case, the
    invocation is what it would be without the body, and every request it
    issues has no body and exactly the headers built from the default
    [Accept] and the caller's own headers. *)
Theorem handler_get_head_drops_body (tool : Tool) (input : RequestInput) :
  finalMethodOf toUpperCase tool input = "GET" ∨
  finalMethodOf toUpperCase tool input = "HEAD" →
  invoke tool input = invoke tool (withoutBody input) ∧
  ∀ req, req ∈ snd (invoke tool input) →
         req_body req = JS.VUndefined ∧
         buildHeaders (in_headers input) = JS.Ok (req_headers req).
Proof.
  intros Hm. unfold handler. simpl.
  change (rawOf tool (withoutBody input)) with (rawOf tool input).
  change (baseOf tool (withoutBody input)) with (baseOf tool input).
  change (finalMethodOf toUpperCase tool (withoutBody input))
    with (finalMethodOf toUpperCase tool input).
  destruct (fillPathParams _ _) as [fullPath|e]; [|split; [done | by intros ? ?%elem_of_nil]].
  destruct (URL_parse _) as [u|]; [|split; [done | by intros ? ?%elem_of_nil]].
  destruct (buildHeaders _) as [hdrs|e]; [|split; [done | by intros ? ?%elem_of_nil]].
  rewrite !prepareBody_get_head by done.
  split; [done|].
  intros req Hreq.
  assert (req_body req = JS.VUndefined ∧ hdrs = req_headers req) as [? ->]; [|done].
  destruct (fetch _) as [res|e]; [destruct (normalize res) as [[body|e] res']|];
    simpl in Hreq; apply list_elem_of_singleton in Hreq; by subst req.
Qed.

End ExecutorProperties.

Lemma handler_invalid_url_witness :
  handler asciiUpper demo_URL_parse demo_JSON_parse demo_fetch
    (mkTool "petstore.getpet" "u" "get" "/pets/{id}" "")
    (mkInput None None None (Some [("id", "42")]) None None JS.VUndefined None)
  = (Returned (TextContent
       "Invalid URL. Provide a valid baseUrl (current: '') or ensure the path is absolute."),
     []).
Proof.
  apply (handler_invalid_url asciiUpper demo_URL_parse demo_JSON_parse demo_fetch
           (mkTool "petstore.getpet" "u" "get" "/pets/{id}" "")
           (mkInput None None None (Some [("id", "42")]) None None JS.VUndefined None)
           "/pets/42"); reflexivity.
Defined.

Lemma handler_get_head_drops_body_witness :
  let tool := mkTool "petstore.getpet" "u" "get" "/pets/{id}" "https://api.example.com/v1" in
  let input := mkInput None None None (Some [("id", "42")]) None
                       (Some [("X-Trace", "1")]) (JS.VObj [("a", JS.VNum 1)]) None in
  handler asciiUpper demo_URL_parse demo_JSON_parse demo_fetch tool input
    = handler asciiUpper demo_URL_parse demo_JSON_parse demo_fetch tool (withoutBody input) ∧
  ∀ req, req ∈ snd (handler asciiUpper demo_URL_parse demo_JSON_parse demo_fetch tool input) →
         req_body req = JS.VUndefined ∧
         buildHeaders (in_headers input) = JS.Ok (req_headers req).
Proof.
  apply (handler_get_head_drops_body asciiUpper demo_URL_parse demo_JSON_parse demo_fetch).
  left. reflexivity.
Defined.

(** The request of the specification's end-to-end scenario. *)
Example handler_petstore :
  snd (handler asciiUpper demo_URL_parse demo_JSON_parse demo_fetch
         (mkTool "petstore.getpet" "u" "get" "/pets/{id}" "https://api.example.com/v1")
         (mkInput None None None (Some [("id", "42")]) None None JS.VUndefined None))
  = [ mkRequest (mkURL "" "" [] "https://api.example.com/v1/pets/42") "GET"
                [("accept", "application/json, */*;q=0.8")] JS.VUndefined 30000 ].
Proof. reflexivity. Qed.

Example handler_petstore_missing_id :
  handler asciiUpper demo_URL_parse demo_JSON_parse demo_fetch
    (mkTool "petstore.getpet" "u" "get" "/pets/{id}" "https://api.example.com/v1")
    (mkInput None None None None None None JS.VUndefined None)
  = (Returned (TextContent "Error filling path params: Missing required path parameter: id"),
     []).
Proof. reflexivity. Qed.

(** C3 at a token named after a property that every object inherits:
    [toString] has no entry in [pathParams], yet [name in pathParams] holds,
    no error is returned and the request goes out with the text of the
    inherited function in its path. *)
Theorem handler_inherited_token :
  let tool := mkTool "t" "u" "get" "/x/{toString}" "https://api.example.com" in
  let input := mkInput None None None None None None JS.VUndefined None in
  tokens (rawOf tool input) = ["toString"] ∧
  JS.lookup_own "toString" (default [] (in_pathParams input)) = None ∧
  fillPathParams (rawOf tool input) (in_pathParams input)
    = JS.Ok "/x/function%20toString()%20%7B%20%5Bnative%20code%5D%20%7D" ∧
  snd (handler asciiUpper demo_URL_parse demo_JSON_parse demo_fetch tool input)
    = [ mkRequest
          (mkURL "" "" []
             "https://api.example.com/x/function%20toString()%20%7B%20%5Bnative%20code%5D%20%7D")
          "GET" [("accept", "application/json, */*;q=0.8")] JS.VUndefined 30000 ].
Proof. split_and!; reflexivity. Qed.

(** C9 at a response that announces JSON and carries something else: the
    fallback reads a body that [res.json()] has already consumed, so
    [parseResponse] rejects and the handler with it, after its one request. *)
Theorem parseResponse_malformed_json_rejects :
  let res := demo_response "application/json; charset=utf-8" "<html>oops</html>" in
  parseResponse demo_JSON_parse res = (JS.Throw bodyUnusable, consumed res) ∧
  fst (handler asciiUpper demo_URL_parse demo_JSON_parse (λ _, JS.Ok res)
         (mkTool "t" "u" "get" "/x" "https://api.example.com")
         (mkInput None None None None None None JS.VUndefined None))
    = Rejected bodyUnusable.
Proof. split; reflexivity. Qed.

(** ** Compilation order and the issued names (claim C1) *)




Section CompilerProperties.

Variable toUpperCase : string → string.
Variable URL_parse : string → option URL.
Variable fetchSpec : string → option JS.value.

Local Abbreviation run := (createServer toUpperCase URL_parse fetchSpec).
Local Abbreviation proposals urls order :=
  (operations toUpperCase (loadSpecs URL_parse fetchSpec urls order)).




End CompilerProperties.



(** ** The statements above on concrete calls *)

Lemma handler_missing_parameter_witness :
  ∃ missing,
    missing ∈ tokens "/pets/{id}" ∧
    JS.has_property missing (@nil (string * string)) = false ∧
    handler asciiUpper demo_URL_parse demo_JSON_parse demo_fetch
      (mkTool "petstore.getpet" "u" "get" "/pets/{id}" "https://api.example.com/v1")
      (mkInput None None None None None None JS.VUndefined None)
    = (Returned (TextContent ("Error filling path params: Missing required path parameter: "
                              +:+ missing)), []).
Proof.
  apply (handler_missing_parameter asciiUpper demo_URL_parse demo_JSON_parse demo_fetch
           (mkTool "petstore.getpet" "u" "get" "/pets/{id}" "https://api.example.com/v1")
           (mkInput None None None None None None JS.VUndefined None) "id").
  - change ("id" ∈ ["id"]). apply list_elem_of_here.
  - reflexivity.
Defined.

Lemma fillPathParams_covered_witness :
  fillPathParams "/users/{a}/posts/{b}" (Some [("a", "al ice"); ("b", "7/8")])
    = JS.Ok "/users/al%20ice/posts/7%2F8" ∧
  tokens "/users/al%20ice/posts/7%2F8" = [].
Proof.
  apply (fillPathParams_covered "/users/{a}/posts/{b}" (Some [("a", "al ice"); ("b", "7/8")])).
  intros name Hin. change (name ∈ ["a"; "b"]) in Hin.
  rewrite !elem_of_cons, elem_of_nil in Hin.
  destruct Hin as [->|[->|[]]]; reflexivity.
Defined.

Lemma parseResponse_json_witness :
  parseResponse demo_JSON_parse (demo_response "application/json" "{}")
  = (JS.Ok (ParsedJson (JS.VObj [])), consumed (demo_response "application/json" "{}")).
Proof.
  apply (parseResponse_json demo_JSON_parse (demo_response "application/json" "{}"));
    reflexivity.
Defined.

Lemma parseResponse_text_witness :
  parseResponse demo_JSON_parse (demo_response "text/html" "<p>hi</p>")
  = (JS.Ok (ParsedText "<p>hi</p>"), consumed (demo_response "text/html" "<p>hi</p>")).
Proof.
  apply (parseResponse_text demo_JSON_parse (demo_response "text/html" "<p>hi</p>"));
    reflexivity.
Defined.

Lemma parseResponse_malformed_witness :
  parseResponse demo_JSON_parse (demo_response "application/json" "{oops")
  = (JS.Throw bodyUnusable, consumed (demo_response "application/json" "{oops")).
Proof.
  apply (parseResponse_malformed demo_JSON_parse
           (demo_response "application/json" "{oops") "{oops"); reflexivity.
Defined.

Lemma parseResponse_no_body_witness :
  parseResponse demo_JSON_parse
    (mkResponse 204 "No Content" "" true [("content-type", "application/json")] None false)
  = (JS.Ok (ParsedText ""),
     mkResponse 204 "No Content" "" true [("content-type", "application/json")] None false).
Proof.
  apply (parseResponse_no_body demo_JSON_parse
           (mkResponse 204 "No Content" "" true [("content-type", "application/json")]
                       None false)); reflexivity.
Defined.

(** * Further properties of the code *)

(** ** Slugs *)

Lemma forallChars_app (f : ascii → bool) (a b : string) :
  forallChars f (a +:+ b) = forallChars f a && forallChars f b.
Proof.
  induction a as [|c a IH]; [done|]. simpl. by rewrite IH, andb_assoc.
Qed.

Lemma forallChars_cons (f : ascii → bool) (c : ascii) (r : string) :
  forallChars f (String c r) = f c && forallChars f r.
Proof. reflexivity. Qed.

Lemma noDoubleDash_cons (c : ascii) (r : string) :
  noDoubleDash (String c r) =
    negb (Ascii.eqb c "-" && JS.startsWith r "-") && noDoubleDash r.
Proof. reflexivity. Qed.

Lemma startsWith_dash_cons (c : ascii) (r : string) :
  JS.startsWith (String c r) "-" = Ascii.eqb c "-".
Proof.
  unfold JS.startsWith. destruct (Ascii.eqb_spec c "-") as [->|Hne].
  - apply prefix_spec. by exists r.
  - destruct (String.prefix "-" (String c r)) eqn:E; [|done].
    apply prefix_spec in E as [t Ht]. simpl in Ht. congruence.
Qed.

Lemma append_cons (c : ascii) (a b : string) :
  String c a +:+ b = String c (a +:+ b).
Proof. reflexivity. Qed.

Lemma slugShape_prefix (a b : string) : slugShape (a +:+ b) → slugShape a.
Proof.
  intros (Hc & Hs & Hd). split_and!.
  - rewrite forallChars_app in Hc. by apply andb_true_iff in Hc as [? _].
  - destruct a as [|c a]; [done|]. rewrite append_cons in Hs.
    by rewrite startsWith_dash_cons in *.
  - clear Hc Hs. induction a as [|c a IH]; [done|]. rewrite append_cons in Hd.
    rewrite noDoubleDash_cons in *. apply andb_true_iff in Hd as [H1 H2].
    rewrite (IH H2), andb_true_r. destruct a as [|d a].
    + unfold JS.startsWith. simpl. by rewrite andb_false_r.
    + rewrite append_cons in H1. by rewrite startsWith_dash_cons in *.
Qed.

Lemma collapseRuns_shape (inrun : bool) (s : string) :
  forallChars is_slugChar (collapseRuns inrun s) = true ∧
  noDoubleDash (collapseRuns inrun s) = true ∧
  (inrun = true → JS.startsWith (collapseRuns inrun s) "-" = false).
Proof.
  revert inrun. induction s as [|c r IH]; intros inrun; [done|]. simpl.
  destruct (is_alnum_lower c) eqn:Ec.
  - destruct (IH false) as (H1 & H2 & _). split_and!.
    + rewrite forallChars_cons, H1. unfold is_slugChar. by rewrite Ec.
    + rewrite noDoubleDash_cons, H2, andb_true_r.
      assert (Ascii.eqb c "-" = false) as ->; [|done].
      apply Ascii.eqb_neq. by intros ->.
    + intros _. rewrite startsWith_dash_cons. apply Ascii.eqb_neq. by intros ->.
  - destruct (IH true) as (H1 & H2 & H3). destruct inrun; [done|].
    split_and!; [by rewrite forallChars_cons, H1 | | done].
    by rewrite noDoubleDash_cons, H2, (H3 eq_refl), andb_false_r.
Qed.

Lemma dropLeadingDashes_shape (s : string) :
  forallChars is_slugChar s = true → noDoubleDash s = true →
  slugShape (dropLeadingDashes s).
Proof.
  induction s as [|c r IH]; [done|]. rewrite forallChars_cons. intros Hc Hd.
  apply andb_true_iff in Hc as [Hc1 Hc2].
  rewrite noDoubleDash_cons in Hd. apply andb_true_iff in Hd as [Hd1 Hd2].
  simpl. destruct (Ascii.eqb c "-") eqn:E; [by apply IH|].
  split_and!.
  - by rewrite forallChars_cons, Hc1, Hc2.
  - by rewrite startsWith_dash_cons.
  - by rewrite noDoubleDash_cons, E, Hd2.
Qed.

Lemma dropTrailingDashes_prefix (s : string) :
  ∃ t, s = dropTrailingDashes s +:+ t.
Proof.
  induction s as [|c r [t IH]]; [by exists ""|]. simpl.
  destruct (dropTrailingDashes r) as [|d u] eqn:E.
  - destruct (Ascii.eqb c "-"); [by exists (String c r)|].
    exists r. done.
  - exists t. by rewrite append_cons, <- IH.
Qed.

Lemma slice_to_prefix (n : nat) (s : string) : ∃ t, s = JS.slice_to n s +:+ t.
Proof.
  revert s. induction n as [|n IH]; intros s; [by exists s|].
  destruct s as [|c r]; [by exists ""|]. destruct (IH r) as [t Ht].
  exists t. simpl. by rewrite <- Ht.
Qed.

Lemma slice_to_length (n : nat) (s : string) : String.length (JS.slice_to n s) ≤ n.
Proof.
  revert s. induction n as [|n IH]; intros [|c r]; simpl; try lia.
  specialize (IH r). lia.
Qed.

Lemma slugify_shape_all (s : string) :
  forallChars is_slugChar (slugify s) = true ∧
  String.length (slugify s) ≤ 120 ∧
  JS.startsWith (slugify s) "-" = false ∧
  noDoubleDash (slugify s) = true.
Proof.
  unfold slugify.
  destruct (collapseRuns_shape false (JS.toLowerCase s)) as (H1 & H2 & _).
  pose proof (dropLeadingDashes_shape _ H1 H2) as Hshape.
  set (u := dropLeadingDashes _) in *.
  destruct (dropTrailingDashes_prefix u) as [t1 E1]. rewrite E1 in Hshape.
  apply slugShape_prefix in Hshape.
  destruct (slice_to_prefix 120 (dropTrailingDashes u)) as [t2 E2].
  rewrite E2 in Hshape. apply slugShape_prefix in Hshape as (? & ? & ?).
  split_and!; [done | apply slice_to_length | done | done].
Qed.

(** A slug is made of [a-z], [0-9] and dashes, is at most 120 characters
    long, does not start with a dash and has no two dashes in a row. *)
Theorem slugify_shape (s : string) :
  forallChars is_slugChar (slugify s) = true ∧
  String.length (slugify s) ≤ 120 ∧
  JS.startsWith (slugify s) "-" = false ∧
  noDoubleDash (slugify s) = true.
Proof. apply slugify_shape_all. Qed.

Lemma slugify_chars (s : string) : forallChars is_slugChar (slugify s) = true.
Proof. apply slugify_shape_all. Qed.

Lemma lowerChar_slugChar (c : ascii) : is_slugChar c = true → JS.lowerChar c = c.
Proof. destruct c as [[] [] [] [] [] [] [] []]; by vm_compute. Qed.

Lemma toLowerCase_slug (s : string) :
  forallChars is_slugChar s = true → JS.toLowerCase s = s.
Proof.
  induction s as [|c r IH]; [done|]. rewrite forallChars_cons.
  intros [Hc Hr]%andb_true_iff. simpl. by rewrite (lowerChar_slugChar _ Hc), (IH Hr).
Qed.

Lemma collapseRuns_slug (inrun : bool) (s : string) :
  forallChars is_slugChar s = true → noDoubleDash s = true →
  (inrun = true → JS.startsWith s "-" = false) →
  collapseRuns inrun s = s.
Proof.
  revert inrun. induction s as [|c r IH]; intros inrun; [done|].
  rewrite forallChars_cons, noDoubleDash_cons, startsWith_dash_cons.
  intros [Hc Hr]%andb_true_iff [Hd1 Hd2]%andb_true_iff Hs. simpl.
  unfold is_slugChar in Hc. destruct (is_alnum_lower c) eqn:Ec.
  - rewrite IH; done.
  - simpl in Hc. rewrite Hc in *. simpl in Hd1. apply negb_true_iff in Hd1.
    destruct inrun; [by specialize (Hs eq_refl)|].
    rewrite IH; [|done..]. apply Ascii.eqb_eq in Hc. by subst c.
Qed.

Lemma dropLeadingDashes_id (s : string) :
  JS.startsWith s "-" = false → dropLeadingDashes s = s.
Proof.
  destruct s as [|c r]; [done|]. rewrite startsWith_dash_cons. simpl. by intros ->.
Qed.

Lemma dropTrailingDashes_id (s : string) :
  JS.endsWith s "-" = false → dropTrailingDashes s = s.
Proof.
  induction s as [|c r IH]; [done|]. rewrite endsWith_unfold.
  intros [H1 H2]%orb_false_iff. simpl. rewrite (IH H2).
  destruct r as [|d r]; [|done].
  destruct (Ascii.eqb_spec c "-") as [->|]; [done|done].
Qed.

Lemma slice_to_id (n : nat) (s : string) : String.length s ≤ n → JS.slice_to n s = s.
Proof.
  revert s. induction n as [|n IH]; intros [|c r]; simpl; try done; try lia.
  intros H. rewrite IH; [done | lia].
Qed.

(** A string that already has the shape of a slug, with no dash at its
    end, is its own slug: [slugify] changes nothing in it. *)
Theorem slugify_fixed_point (s : string) :
  forallChars is_slugChar s = true → noDoubleDash s = true →
  JS.startsWith s "-" = false → JS.endsWith s "-" = false →
  String.length s ≤ 120 →
  slugify s = s.
Proof.
  intros Hc Hd Hs He Hl. unfold slugify.
  rewrite toLowerCase_slug, collapseRuns_slug, dropLeadingDashes_id,
    dropTrailingDashes_id, slice_to_id; done.
Qed.

Lemma slugify_fixed_point_witness : slugify "pet-store-api-v2" = "pet-store-api-v2".
Proof. apply slugify_fixed_point; [reflexivity.. | simpl; lia]. Defined.

(** ** Templates and their pieces *)

Lemma untokenize_tokenize_id (s : string) : untokenize (tokenize s) = s.
Proof.
  remember (String.length s) as n eqn:Hn.
  assert (String.length s ≤ n) as Hlen by lia. clear Hn.
  revert s Hlen. induction n as [|n IH]; intros [|c r] Hlen; try done.
  { simpl in Hlen. lia. }
  simpl in Hlen. rewrite tokenize_cons.
  destruct (Ascii.eqb_spec c "{") as [->|Hc].
  - destruct (matchToken r) as [[name t]|] eqn:E.
    + pose proof (matchToken_shorter _ _ _ E) as Hlt.
      apply matchToken_Some in E as (-> & _ & _). simpl.
      rewrite IH; [done | lia].
    + simpl. rewrite IH; [done | lia].
  - simpl. rewrite IH; [done | lia].
Qed.

(** Tokenizing loses nothing: the pieces, with every token back between
    its braces, spell the template. *)
Theorem untokenize_tokenize (s : string) : untokenize (tokenize s) = s.
Proof. apply untokenize_tokenize_id. Qed.

Lemma pieces_without_token (ps : list piece) :
  omap (λ p, match p with Tok n => Some n | Lit _ => None end) ps = [] →
  ps = lits (untokenize ps).
Proof.
  induction ps as [|[c|n] ps IH]; simpl; [done | | done].
  intros H. by rewrite <- IH.
Qed.

(** A template without any token comes back unchanged, whatever the
    parameters are, a lone or an empty pair of braces included. *)
Theorem fillPathParams_without_token (path : string)
    (pathParams : option (list (string * string))) :
  tokens path = [] → fillPathParams path pathParams = JS.Ok path.
Proof.
  intros H. unfold fillPathParams. apply pieces_without_token in H.
  rewrite untokenize_tokenize_id in H. rewrite H. apply replacePieces_lits.
Qed.

Lemma fillPathParams_without_token_witness :
  fillPathParams "/a/{}/b}{" (Some [("a", "1")]) = JS.Ok "/a/{}/b}{".
Proof. apply fillPathParams_without_token. reflexivity. Defined.

(** ** Percent-encoding *)

Lemma encodeChar_safe (c : ascii) :
  forallChars (λ d, JS.is_unreserved d || Ascii.eqb d "%") (JS.encodeChar c) = true.
Proof. destruct c as [[] [] [] [] [] [] [] []]; reflexivity. Qed.

Lemma encodeChar_unreserved (c : ascii) :
  JS.is_unreserved c = true → JS.encodeChar c = String c "".
Proof. unfold JS.encodeChar. by intros ->. Qed.

(** An encoded value is made of unreserved characters and percent signs
    only, so it brings no slash, question mark, hash, ampersand or brace
    into a path; and a value made of unreserved characters is left as it
    is. *)
Theorem encodeURIComponent_safe (s : string) :
  forallChars (λ d, JS.is_unreserved d || Ascii.eqb d "%") (JS.encodeURIComponent s) = true ∧
  (forallChars JS.is_unreserved s = true → JS.encodeURIComponent s = s).
Proof.
  split.
  - induction s as [|c r IH]; [done|]. simpl.
    by rewrite forallChars_app, encodeChar_safe, IH.
  - induction s as [|c r IH]; [done|]. rewrite forallChars_cons.
    intros [Hc Hr]%andb_true_iff. simpl.
    by rewrite (encodeChar_unreserved _ Hc), (IH Hr).
Qed.

Lemma encodeURIComponent_safe_witness :
  JS.encodeURIComponent "Petstore_v2.1~(beta)" = "Petstore_v2.1~(beta)".
Proof. apply (proj2 (encodeURIComponent_safe "Petstore_v2.1~(beta)")). reflexivity. Defined.

(** ** Headers, body and query of a request *)

Lemma Headers_put_same (name value : string) (h : Headers) :
  JS.lookup_own name (Headers_put name value h) = Some value.
Proof.
  induction h as [|[n x] h IH]; simpl.
  - by rewrite String.eqb_refl.
  - destruct (String.eqb n name) eqn:E; simpl.
    + by rewrite String.eqb_refl.
    + by rewrite E.
Qed.

Lemma Headers_put_other (name other value : string) (h : Headers) :
  other ≠ name →
  JS.lookup_own other (Headers_put name value h) = JS.lookup_own other h.
Proof.
  intros Hne. apply String.eqb_neq in Hne.
  induction h as [|[n x] h IH]; simpl.
  - by rewrite String.eqb_sym, Hne.
  - destruct (String.eqb_spec n name) as [->|Hn]; simpl.
    + by rewrite String.eqb_sym, Hne.
    + by rewrite IH.
Qed.

Lemma Headers_set_Ok (k v : string) (h h' : Headers) :
  Headers_set k v h = JS.Ok h' →
  h' = Headers_put (asciiLower k) (normalizeHeaderValue v) h.
Proof.
  unfold Headers_set. destruct (validHeaderName k); [|done].
  destruct (validHeaderValue _); [|done]. simpl. by intros [= <-].
Qed.


(** Headers that are set under other names leave a name as it was. *)
Lemma setAll_other (hs : list (string * string)) (h h' : Headers) (name : string) :
  setAll hs h = JS.Ok h' →
  (∀ k v, (k, v) ∈ hs → asciiLower k ≠ name) →
  JS.lookup_own name h' = JS.lookup_own name h.
Proof.
  revert h. induction hs as [|[k v] hs IH]; intros h; simpl.
  - by intros [= <-].
  - destruct (Headers_set k v h) as [h1|e] eqn:E; [|done].
    intros Hrest Hno. apply Headers_set_Ok in E as ->.
    rewrite (IH _ Hrest).
    + apply Headers_put_other. intros ->.
      apply (Hno k v); [apply elem_of_cons; by left | done].
    + intros k' v' Hin. apply (Hno k' v'). apply elem_of_cons. by right.
Qed.



(** A caller who sets no [Accept] header gets the default one. *)
Theorem buildHeaders_default_accept (headers : option (list (string * string)))
    (h : Headers) :
  buildHeaders headers = JS.Ok h →
  (∀ k v, (k, v) ∈ default [] headers → asciiLower k ≠ "accept") →
  Headers_get "Accept" h = Some "application/json, */*;q=0.8".
Proof.
  unfold buildHeaders.
  destruct (Headers_set "Accept" _ []) as [h0|e] eqn:E; [|done].
  intros Hall Hno. unfold Headers_get.
  change (asciiLower "Accept") with "accept".
  rewrite (setAll_other _ _ _ _ Hall Hno).
  apply Headers_set_Ok in E as ->. reflexivity.
Qed.

Lemma buildHeaders_default_accept_witness :
  Headers_get "Accept" [("accept", "application/json, */*;q=0.8"); ("authorization", "Bearer t")]
  = Some "application/json, */*;q=0.8".
Proof.
  apply (buildHeaders_default_accept (Some [("Authorization", "Bearer t")])).
  - reflexivity.
  - intros k v Hin. apply list_elem_of_singleton in Hin as [= -> ->]. discriminate.
Defined.

Lemma JSON_stringify_defined (v : JS.value) :
  JS.is_nullish v = false → ∃ text, JS.JSON_stringify v = Some text.
Proof. destruct v as [| |[]| | | |]; simpl; intros; try done; eauto. Qed.

Lemma setContentType_Ok (h : Headers) :
  Headers_set "content-type" "application/json" h
  = JS.Ok (Headers_put "content-type" "application/json" h).
Proof. reflexivity. Qed.


(** A body that is sent (present, method neither GET nor HEAD) goes out
    under a content type: the caller's own when that is not empty, with the
    headers untouched, and [application/json] otherwise. Under a content
    type that contains [application/json] the body sent is a text, the body
    itself when it is a string and its JSON text when it is not; under any
    other content type it is the body as given. *)
Theorem prepareBody_sent (body : JS.value) (finalMethod : string) (hdrs : Headers) :
  JS.is_nullish body = false → finalMethod ≠ "GET" → finalMethod ≠ "HEAD" →
  ∃ hdrs' fetchBody ct,
    prepareBody body finalMethod hdrs = JS.Ok (hdrs', fetchBody) ∧
    Headers_get "content-type" hdrs' = Some ct ∧ ct ≠ "" ∧
    ((Headers_get "content-type" hdrs = Some ct ∧ hdrs' = hdrs) ∨
     (JS.str_or (Headers_get "content-type" hdrs) "" = "" ∧ ct = "application/json")) ∧
    (if JS.includes ct "application/json"
     then ∃ text, fetchBody = JS.VStr text ∧
                  match body with
                  | JS.VStr t => text = t
                  | _ => JS.JSON_stringify body = Some text
                  end
     else fetchBody = body).
Proof.
  intros Hb Hg Hh. unfold prepareBody. rewrite Hb.
  apply String.eqb_neq in Hg, Hh. rewrite Hg, Hh. simpl.
  destruct (JSON_stringify_defined body Hb) as [text Htext].
  destruct (JS.is_empty (JS.str_or (Headers_get "content-type" hdrs) "")) eqn:E.
  - rewrite setContentType_Ok.
    assert (Headers_get "content-type" (Headers_put "content-type" "application/json" hdrs)
            = Some "application/json") as Hget by apply Headers_put_same.
    rewrite Hget. simpl.
    eexists _, _, "application/json". split; [done|].
    split_and!; [done | done | right; by apply is_empty_true in E |].
    simpl. destruct body; rewrite ?Htext; eauto; done.
  - destruct (Headers_get "content-type" hdrs) as [ct|] eqn:Ect; [|done].
    assert (JS.is_empty ct = false) as Ec.
    { unfold JS.str_or in E. by destruct (JS.is_empty ct). }
    assert (JS.str_or (Some ct) "" = ct) as -> by (unfold JS.str_or; by rewrite Ec).
    destruct (JS.includes ct "application/json") eqn:Ei.
    + eexists _, _, ct. split; [done|].
      split_and!; [done | by apply is_empty_false | by left |].
      rewrite Ei. destruct body; rewrite ?Htext; eauto; done.
    + exists hdrs, body, ct. split; [done|].
      split_and!; [done | by apply is_empty_false | by left |].
      by rewrite Ei.
Qed.

Lemma prepareBody_sent_witness :
  ∃ hdrs' fetchBody ct,
    prepareBody (JS.VObj [("a", JS.VNum 1)]) "POST" [("accept", "text/plain")]
      = JS.Ok (hdrs', fetchBody) ∧
    Headers_get "content-type" hdrs' = Some ct ∧ ct ≠ "" ∧
    ((Headers_get "content-type" [("accept", "text/plain")] = Some ct ∧
      hdrs' = [("accept", "text/plain")]) ∨
     (JS.str_or (Headers_get "content-type" [("accept", "text/plain")]) "" = "" ∧
      ct = "application/json")) ∧
    (if JS.includes ct "application/json"
     then ∃ text, fetchBody = JS.VStr text ∧
                  JS.JSON_stringify (JS.VObj [("a", JS.VNum 1)]) = Some text
     else fetchBody = JS.VObj [("a", JS.VNum 1)]).
Proof.
  apply (prepareBody_sent (JS.VObj [("a", JS.VNum 1)]) "POST" [("accept", "text/plain")]);
    [reflexivity | discriminate | discriminate].
Defined.

Lemma sp_getAll_app (k : string) (a b : list (string * string)) :
  sp_getAll k (a ++ b) = sp_getAll k a ++ sp_getAll k b.
Proof. unfold sp_getAll. by rewrite List.filter_app, map_app. Qed.

Lemma applyQueryEntry_other (ps : list (string * string)) (k k' : string) (v : JS.value) :
  k ≠ k' → sp_getAll k (applyQueryEntry ps (k', v)) = sp_getAll k ps.
Proof.
  intros Hne. destruct v as [| |b|z|t|items|o]; simpl; try done;
    try by apply sp_getAll_set_other.
  rewrite fold_append, sp_getAll_app.
  assert (sp_getAll k (map (λ item, (k', JS.ToString item)) items) = []) as ->.
  { unfold sp_getAll. induction items as [|x items IH]; simpl; [done|].
    apply String.eqb_neq in Hne. by rewrite String.eqb_sym, Hne. }
  apply app_nil_r.
Qed.

(** The query loop touches only the keys it is given: under every other
    key the URL keeps the values it had, those written in the path
    included. *)
Theorem applyQuery_other_keys (q : list (string * JS.value))
    (ps : list (string * string)) (k : string) :
  k ∉ q.*1 → sp_getAll k (applyQuery (Some q) ps) = sp_getAll k ps.
Proof.
  simpl. revert ps. induction q as [|[k' v] q IH]; intros ps Hk; simpl; [done|].
  apply not_elem_of_cons in Hk as [Hne Hk]. simpl in Hne.
  rewrite (IH _ Hk). by apply applyQueryEntry_other.
Qed.

Lemma applyQuery_other_keys_witness :
  sp_getAll "page"
    (applyQuery (Some [("tags", JS.VArr [JS.VStr "a"]); ("size", JS.VNum 5)])
                [("page", "3"); ("size", "1")])
  = sp_getAll "page" [("page", "3"); ("size", "1")].
Proof.
  apply applyQuery_other_keys.
  intros Hin. simpl in Hin. rewrite !elem_of_cons, elem_of_nil in Hin.
  destruct Hin as [H|[H|H]]; [discriminate H.. | done].
Defined.

(** ** How an invocation ends *)

Section InvocationProperties.

Variable toUpperCase : string → string.
Variable URL_parse : string → option URL.
Variable JSON_parse : string → option JS.value.
Variable fetch : Request → JS.result Response.


(** An invocation makes at most one attempt: it hands the transport no
    request or one, and when the transport fails on that request the
    failure is returned as the text [Request failed: ...], not retried and
    not thrown. *)
Theorem handler_single_attempt (tool : Tool) (input : RequestInput) :
  length (snd (handler toUpperCase URL_parse JSON_parse fetch tool input)) ≤ 1 ∧
  ∀ req e,
    req ∈ snd (handler toUpperCase URL_parse JSON_parse fetch tool input) →
    fetch req = JS.Throw e →
    handler toUpperCase URL_parse JSON_parse fetch tool input
    = (Returned (TextContent ("Request failed: " +:+ JS.describe e)), [req]).
Proof.
  unfold handler.
  destruct (fillPathParams _ _) as [fullPath|e0]; [|split; [simpl; lia | by intros ? ? ?%elem_of_nil]].
  destruct (URL_parse _) as [u|]; [|split; [simpl; lia | by intros ? ? ?%elem_of_nil]].
  destruct (buildHeaders _) as [hdrs|e0]; [|split; [simpl; lia | by intros ? ? ?%elem_of_nil]].
  destruct (prepareBody _ _ _) as [[hdrs' fetchBody]|e0];
    [|split; [simpl; lia | by intros ? ? ?%elem_of_nil]].
  set (request := mkRequest _ _ _ _ _).
  destruct (fetch request) as [res|e0] eqn:Ef.
  - destruct (parseResponse JSON_parse res) as [[body|e1] res'];
      (split; [simpl; lia|]); intros req e Hreq Hthrow; simpl in Hreq;
      apply list_elem_of_singleton in Hreq; subst req; congruence.
  - split; [simpl; lia|]. intros req e Hreq Hthrow. simpl in Hreq.
    apply list_elem_of_singleton in Hreq. subst req.
    rewrite Ef in Hthrow. by injection Hthrow as ->.
Qed.


End InvocationProperties.

Lemma handler_single_attempt_witness :
  handler asciiUpper demo_URL_parse demo_JSON_parse
    (λ _, JS.Throw (JS.mkError "TypeError" "fetch failed"))
    (mkTool "t" "u" "get" "/x" "https://api.example.com")
    (mkInput None None None None None None JS.VUndefined None)
  = (Returned (TextContent "Request failed: fetch failed"),
     [ mkRequest (mkURL "" "" [] "https://api.example.com/x") "GET"
                 [("accept", "application/json, */*;q=0.8")] JS.VUndefined 30000 ]).
Proof.
  apply (proj2 (handler_single_attempt asciiUpper demo_URL_parse demo_JSON_parse
                  (λ _, JS.Throw (JS.mkError "TypeError" "fetch failed"))
                  (mkTool "t" "u" "get" "/x" "https://api.example.com")
                  (mkInput None None None None None None JS.VUndefined None))
           (mkRequest (mkURL "" "" [] "https://api.example.com/x") "GET"
                      [("accept", "application/json, */*;q=0.8")] JS.VUndefined 30000)
           (JS.mkError "TypeError" "fetch failed")).
  - apply list_elem_of_here.
  - reflexivity.
Defined.


(** ** The list of source URLs *)

Lemma dedupeInto_spec (us : list string) (seen : gset string) (out : list string) :
  NoDup out → (∀ x, x ∈ seen ↔ x ∈ out) →
  NoDup (dedupeInto us seen out) ∧
  (∀ x, x ∈ dedupeInto us seen out ↔ x ∈ out ∨ x ∈ us) ∧
  ∃ t, dedupeInto us seen out = out ++ t ∧ t `sublist_of` us.
Proof.
  revert seen out. induction us as [|u us IH]; intros seen out Hnd Hseen; simpl.
  - split_and!; [done | | exists []; by rewrite app_nil_r].
    intros x. rewrite elem_of_nil. tauto.
  - case_bool_decide as Hu.
    + destruct (IH seen out Hnd Hseen) as (H1 & H2 & t & H3 & H4).
      split_and!; [done | | exists t; split; [done | by apply sublist_cons]].
      intros x. rewrite H2, elem_of_cons. split; [tauto|].
      intros [?|[->|?]]; [tauto | left; by apply Hseen | tauto].
    + destruct (IH ({[u]} ∪ seen) (out ++ [u])) as (H1 & H2 & t & H3 & H4).
      * apply NoDup_app. split_and!; [done | | apply NoDup_singleton].
        intros x Hx Hx'. apply list_elem_of_singleton in Hx' as ->.
        by apply Hu, Hseen.
      * intros x. rewrite elem_of_union, elem_of_singleton, elem_of_app,
          list_elem_of_singleton, Hseen. tauto.
      * split_and!; [done | |].
        -- intros x. rewrite H2, elem_of_app, list_elem_of_singleton, elem_of_cons. tauto.
        -- exists (u :: t). split; [by rewrite H3, <- app_assoc | by apply sublist_skip].
Qed.

Lemma dedupeInto_fresh (us : list string) (seen : gset string) (out : list string) :
  NoDup us → (∀ x, x ∈ us → x ∉ seen) → dedupeInto us seen out = out ++ us.
Proof.
  revert seen out. induction us as [|u us IH]; intros seen out Hnd Hout; simpl.
  - by rewrite app_nil_r.
  - apply NoDup_cons in Hnd as [Hu Hnd].
    rewrite bool_decide_eq_false_2 by (apply Hout, elem_of_cons; by left).
    rewrite IH; [by rewrite <- app_assoc | done |].
    intros x Hx. apply not_elem_of_union. split.
    + apply not_elem_of_singleton. by intros ->.
    + apply Hout, elem_of_cons. by right.
Qed.

(** The URL list has no duplicate, holds exactly the entries of the
    environment variable and the URL-like arguments, and keeps them in
    their order, those of the environment first: it is a sublist of the
    two lists put end to end, and it is these two lists when no URL is
    given twice. *)
Theorem parseUrlsFromEnvAndArgs_dedupes (env : option string) (argv : list string) :
  NoDup (parseUrlsFromEnvAndArgs env argv) ∧
  (∀ u, u ∈ parseUrlsFromEnvAndArgs env argv ↔ u ∈ envUrls env ∨ u ∈ argUrls argv) ∧
  parseUrlsFromEnvAndArgs env argv `sublist_of` envUrls env ++ argUrls argv ∧
  (NoDup (envUrls env ++ argUrls argv) →
   parseUrlsFromEnvAndArgs env argv = envUrls env ++ argUrls argv).
Proof.
  unfold parseUrlsFromEnvAndArgs.
  destruct (dedupeInto_spec (envUrls env ++ argUrls argv) ∅ [])
    as (H1 & H2 & t & H3 & H4); [apply NoDup_nil_2 | intros x; set_solver |].
  simpl in H3. split_and!; [done | | by rewrite H3 |].
  - intros u. rewrite H2, elem_of_nil, elem_of_app. tauto.
  - intros Hnd. rewrite dedupeInto_fresh; [done | done | intros; apply not_elem_of_empty].
Qed.

Lemma parseUrlsFromEnvAndArgs_dedupes_witness :
  parseUrlsFromEnvAndArgs (Some " http://a/v1 ,,http://b/v2")
                          ["node"; "index.js"; "--verbose"; "HTTPS://c/v3"]
  = envUrls (Some " http://a/v1 ,,http://b/v2")
    ++ argUrls ["node"; "index.js"; "--verbose"; "HTTPS://c/v3"].
Proof.
  apply (proj2 (proj2 (proj2 (parseUrlsFromEnvAndArgs_dedupes
           (Some " http://a/v1 ,,http://b/v2")
           ["node"; "index.js"; "--verbose"; "HTTPS://c/v3"])))).
  change (NoDup ["http://a/v1"; "http://b/v2"; "HTTPS://c/v3"]).
  repeat (apply NoDup_cons_2;
          [intros H; rewrite ?elem_of_cons, elem_of_nil in H; intuition discriminate|]).
  apply NoDup_nil_2.
Defined.

Example parseUrlsFromEnvAndArgs_repeated :
  parseUrlsFromEnvAndArgs (Some "http://a/v1, http://b/v2,http://a/v1")
                          ["node"; "index.js"; "http://b/v2"; "//c/v3"; "ftp://d"]
  = ["http://a/v1"; "http://b/v2"; "//c/v3"].
Proof. vm_compute. reflexivity. Qed.

Lemma trimStart_suffix (s : string) : ∃ a, s = a +:+ trimStart s.
Proof.
  induction s as [|c r [a IH]]; [by exists ""|]. simpl.
  destruct (is_whitespace c); [|by exists ""].
  exists (String c a). by rewrite append_cons, <- IH.
Qed.

Lemma trimEnd_prefix (s : string) : ∃ b, s = trimEnd s +:+ b.
Proof.
  induction s as [|c r [b IH]]; [by exists ""|]. simpl.
  destruct (trimEnd r) as [|d u] eqn:E.
  - destruct (is_whitespace c); [by exists (String c r) | by exists r].
  - exists b. by rewrite append_cons, <- IH.
Qed.

Lemma trimEnd_idemp (s : string) : trimEnd (trimEnd s) = trimEnd s.
Proof.
  induction s as [|c r IH]; [done|]. simpl.
  destruct (trimEnd r) as [|d u] eqn:E.
  - destruct (is_whitespace c) eqn:Ec; [done|]. simpl. by rewrite Ec.
  - simpl in *. by rewrite IH.
Qed.

Lemma trimStart_trimEnd (s : string) :
  trimStart s = s → trimStart (trimEnd s) = trimEnd s.
Proof.
  destruct s as [|c r]; [done|]. simpl.
  destruct (is_whitespace c) eqn:Ec.
  - intros H. apply (f_equal String.length) in H.
    destruct (trimStart_suffix r) as [a Ha]. apply (f_equal String.length) in Ha.
    rewrite length_append in Ha. simpl in H. lia.
  - intros _. destruct (trimEnd r); simpl; by rewrite Ec.
Qed.

Lemma trimStart_idemp (s : string) : trimStart (trimStart s) = trimStart s.
Proof.
  induction s as [|c r IH]; [done|]. simpl.
  destruct (is_whitespace c) eqn:Ec; [done|]. simpl. by rewrite Ec.
Qed.

Lemma trim_idemp (s : string) : trim (trim s) = trim s.
Proof.
  unfold trim. rewrite (trimStart_trimEnd (trimStart s)) by apply trimStart_idemp.
  apply trimEnd_idemp.
Qed.

Lemma splitComma_noComma (s : string) :
  Forall (λ piece, forallChars (λ c, negb (Ascii.eqb c ",")) piece = true) (splitComma s).
Proof.
  induction s as [|c r IH]; simpl; [by repeat constructor|].
  destruct (Ascii.eqb c ",") eqn:Ec; [by constructor|].
  destruct (splitComma r) as [|piece pieces]; [by repeat constructor; simpl; rewrite Ec|].
  apply Forall_cons in IH as [H1 H2]. constructor; [|done].
  by rewrite forallChars_cons, Ec, H1.
Qed.

Lemma trim_forallChars (f : ascii → bool) (s : string) :
  forallChars f s = true → forallChars f (trim s) = true.
Proof.
  intros H. unfold trim.
  destruct (trimStart_suffix s) as [a Ha]. rewrite Ha, forallChars_app in H.
  apply andb_true_iff in H as [_ H].
  destruct (trimEnd_prefix (trimStart s)) as [b Hb]. rewrite Hb, forallChars_app in H.
  by apply andb_true_iff in H as [H _].
Qed.

(** An entry taken from the environment variable is not empty, has no
    white space around it (trimming it again changes nothing) and holds no
    comma; a variable that is absent or empty gives no entry. *)
Theorem envUrls_entries (env : option string) (u : string) :
  (u ∈ envUrls env →
   u ≠ "" ∧ trim u = u ∧ forallChars (λ c, negb (Ascii.eqb c ",")) u = true) ∧
  envUrls None = [] ∧ envUrls (Some "") = [].
Proof.
  split; [|done]. unfold envUrls. intros Hin.
  apply list_elem_of_In, List.filter_In in Hin as [Hin Hne].
  apply List.in_map_iff in Hin as (piece & <- & Hpiece).
  split_and!.
  - apply is_empty_false. by apply negb_true_iff in Hne.
  - apply trim_idemp.
  - apply trim_forallChars.
    pose proof (splitComma_noComma (JS.str_or env "")) as Hall.
    rewrite Forall_forall in Hall. by apply Hall, list_elem_of_In.
Qed.

Lemma envUrls_entries_witness :
  "http://a/v1" ≠ "" ∧ trim "http://a/v1" = "http://a/v1" ∧
  forallChars (λ c, negb (Ascii.eqb c ",")) "http://a/v1" = true.
Proof.
  apply (proj1 (envUrls_entries (Some " http://a/v1 ,,http://b/v2") "http://a/v1")).
  change ("http://a/v1" ∈ ["http://a/v1"; "http://b/v2"]). apply list_elem_of_here.
Defined.

(** ** From documents to tools *)

Lemma registerAll_Forall2 (ops : list (string * Operation)) (used : gset string)
    (tools : list Tool) :
  registerAll ops used = Some tools → Forall2 registeredFor tools ops.
Proof.
  revert used tools. induction ops as [|[b o] ops IH]; intros used tools; simpl.
  - intros [= <-]. constructor.
  - destruct (makeUniqueName_spec b used) as (name & -> & _ & Hcase). simpl.
    destruct (registerAll ops _) as [rest|] eqn:E; [|done]. simpl.
    intros [= <-]. constructor; [|by apply (IH _ _ E)].
    split; [by destruct o|]. simpl.
    destruct Hcase as [[_ ->]|[_ (i & Hi & -> & _)]]; eauto.
Qed.

Section CompilationProperties.

Variable toUpperCase : string → string.
Variable URL_parse : string → option URL.
Variable fetchSpec : string → option JS.value.

Lemma elem_of_loadSpecs (urls : list string) (order : list nat) (e : SpecEntry) :
  e ∈ loadSpecs URL_parse fetchSpec urls order ↔
  ∃ i url spec, i ∈ order ∧ urls !! i = Some url ∧ fetchSpec url = Some spec ∧
                e = mkSpecEntry url spec (resolveBaseUrl spec)
                      (getSpecKey URL_parse url spec).
Proof.
  unfold loadSpecs, loadSpec. rewrite list_elem_of_omap. split.
  - intros (i & Hi & H). destruct (urls !! i) as [url|] eqn:Eu; [|done]. simpl in H.
    destruct (fetchSpec url) as [spec|] eqn:Ef; [|done]. simpl in H.
    injection H as <-. eauto 10.
  - intros (i & url & spec & Hi & Eu & Ef & ->). exists i. split; [done|].
    rewrite Eu. simpl. by rewrite Ef.
Qed.

Lemma elem_of_operationsOfPath (e : SpecEntry) (rawPath : string) (pathItem : JS.value)
    (b : string) (o : Operation) :
  (b, o) ∈ operationsOfPath toUpperCase e (rawPath, pathItem) ↔
  JS.truthy pathItem = true ∧ JS.typeof_object pathItem = true ∧
  ∃ method, method ∈ METHODS ∧ JS.truthy (JS.prop method pathItem) = true ∧
            b = baseNameOf toUpperCase (s_key e) method rawPath (JS.prop method pathItem) ∧
            o = mkOperation (s_url e) method rawPath (s_baseUrl e).
Proof.
  unfold operationsOfPath.
  destruct (JS.truthy pathItem); cbn [negb orb];
    [|rewrite elem_of_nil; split; [done | by intros (? & _)]].
  destruct (JS.typeof_object pathItem); cbn [negb orb];
    [|rewrite elem_of_nil; split; [done | by intros (_ & ? & _)]].
  rewrite list_elem_of_omap. split.
  - intros (method & Hm & H). destruct (JS.truthy (JS.prop method pathItem)) eqn:Et; [|done].
    simpl in H. injection H as <- <-. eauto 10.
  - intros (_ & _ & method & Hm & Et & -> & ->). exists method. split; [done|].
    by rewrite Et.
Qed.

Lemma elem_of_operationsOfSpec (e : SpecEntry) (b : string) (o : Operation) :
  (b, o) ∈ operationsOfSpec toUpperCase e ↔
  JS.truthy (JS.prop "paths" (s_spec e)) = true ∧
  JS.typeof_object (JS.prop "paths" (s_spec e)) = true ∧
  ∃ rawPath pathItem,
    (rawPath, pathItem) ∈ JS.entries (JS.prop "paths" (s_spec e)) ∧
    (b, o) ∈ operationsOfPath toUpperCase e (rawPath, pathItem).
Proof.
  unfold operationsOfSpec.
  destruct (JS.truthy _); cbn [negb orb];
    [|rewrite elem_of_nil; split; [done | by intros (? & _)]].
  destruct (JS.typeof_object _); cbn [negb orb];
    [|rewrite elem_of_nil; split; [done | by intros (_ & ? & _)]].
  rewrite list_elem_of_In, List.in_flat_map. split.
  - intros ([rawPath pathItem] & Hin & Hop).
    apply list_elem_of_In in Hin, Hop. eauto 10.
  - intros (_ & _ & rawPath & pathItem & Hin & Hop).
    exists (rawPath, pathItem). by rewrite <- !list_elem_of_In.
Qed.

(** Every registered tool stands for an operation of a document that was
    fetched: its URL is one of the list and its fetch succeeded, its base
    URL is the one resolved from that document, its path is a key of the
    document's paths, its method is one of the eight of [METHODS] and is
    declared under that path, and its name is the proposed name or that
    name with a suffix [-i], [i >= 2]. No tool comes from a failed fetch. *)
Theorem createServer_sound (urls : list string) (order : list nat)
    (tools : list Tool) (t : Tool) :
  createServer toUpperCase URL_parse fetchSpec urls order = Some tools →
  t ∈ tools →
  ∃ i spec pathItem,
    i ∈ order ∧ urls !! i = Some (t_specUrl t) ∧
    fetchSpec (t_specUrl t) = Some spec ∧
    t_baseUrl t = resolveBaseUrl spec ∧
    (t_rawPath t, pathItem) ∈ JS.entries (JS.prop "paths" spec) ∧
    t_method t ∈ METHODS ∧
    JS.truthy (JS.prop (t_method t) pathItem) = true ∧
    registeredFor t
      (baseNameOf toUpperCase (getSpecKey URL_parse (t_specUrl t) spec)
                  (t_method t) (t_rawPath t) (JS.prop (t_method t) pathItem),
       operationOf t).
Proof.
  unfold createServer. intros Hreg Hin. apply registerAll_Forall2 in Hreg.
  apply list_elem_of_lookup in Hin as [n Hn].
  destruct (Forall2_lookup_l _ _ _ _ _ Hreg Hn) as ([b o] & Hop & Hfor).
  apply list_elem_of_lookup_2 in Hop. unfold operations in Hop.
  apply list_elem_of_In, List.in_flat_map in Hop as (e & He & Hop).
  apply list_elem_of_In in He, Hop.
  apply elem_of_loadSpecs in He as (i & url & spec & Hi & Eu & Ef & ->).
  apply elem_of_operationsOfSpec in Hop as (_ & _ & rawPath & pathItem & Hentry & Hop).
  apply elem_of_operationsOfPath in Hop as (_ & _ & method & Hm & Et & -> & ->).
  simpl in *. destruct Hfor as [Hop Hname]. simpl in Hop, Hname.
  destruct t as [name tu tm tp tb]. unfold operationOf in Hop. simpl in *.
  injection Hop as -> -> -> ->.
  exists i, spec, pathItem. split_and!; try done.
Qed.


(** One tool per operation, in the order in which the loops reach the
    operations. *)
Theorem createServer_one_tool_per_operation (urls : list string) (order : list nat)
    (tools : list Tool) :
  createServer toUpperCase URL_parse fetchSpec urls order = Some tools →
  operationOf <$> tools
  = snd <$> operations toUpperCase (loadSpecs URL_parse fetchSpec urls order).
Proof.
  unfold createServer. intros Hreg. apply registerAll_Forall2 in Hreg.
  induction Hreg as [|t [b o] tools ops [Hop _] _ IH]; [done|].
  rewrite !fmap_cons, IH. simpl in *. by rewrite Hop.
Qed.

Lemma str_or_cases (P : string → Prop) (x : option string) (d : string) :
  (∀ t, x = Some t → P t) → P d → P (JS.str_or x d).
Proof.
  intros Hx Hd. unfold JS.str_or. destruct x as [t|]; [|done].
  destruct (JS.is_empty t); [done | by apply Hx].
Qed.

Lemma titleSlug_shape (spec : JS.value) (t : string) :
  titleSlug spec = Some t → forallChars is_slugChar t = true.
Proof.
  unfold titleSlug. destruct (JS.truthy _); [|done].
  intros [= <-]. apply slugify_chars.
Qed.

(** The key of a document is made of [a-z], [0-9] and dashes. It is the
    slug of the title whenever that slug is not empty, whatever the URL;
    and without such a title, for a URL that does not parse, the slug of
    the URL text. *)
Theorem getSpecKey_policy (url : string) (spec : JS.value) :
  forallChars is_slugChar (getSpecKey URL_parse url spec) = true ∧
  (∀ t, titleSlug spec = Some t → t ≠ "" → getSpecKey URL_parse url spec = t) ∧
  (JS.str_or (titleSlug spec) "" = "" → URL_parse url = None →
   getSpecKey URL_parse url spec = slugify url).
Proof.
  unfold getSpecKey. split_and!.
  - destruct (URL_parse url) as [u|].
    + apply str_or_cases; [apply titleSlug_shape|].
      apply str_or_cases; [|apply slugify_chars]. intros t [= <-].
      destruct (JS.is_empty _); [apply slugify_chars|].
      by rewrite forallChars_app, forallChars_cons, !slugify_chars.
    + apply str_or_cases; [apply titleSlug_shape | apply slugify_chars].
  - intros t -> Hne. apply is_empty_false in Hne.
    destruct (URL_parse url); unfold JS.str_or; by rewrite Hne.
  - intros Ht ->. unfold JS.str_or in *. destruct (titleSlug spec) as [t|]; [|done].
    destruct (JS.is_empty t) eqn:E; [done|]. subst t. done.
Qed.

End CompilationProperties.

Lemma createServer_sound_witness :
  let t := mkTool "k.x-2" "http://a/openapi.json" "get" "/q" "" in
  ∃ i spec pathItem,
    i ∈ [0] ∧ ["http://a/openapi.json"] !! i = Some (t_specUrl t) ∧
    demo_fetchSpec (t_specUrl t) = Some spec ∧
    t_baseUrl t = resolveBaseUrl spec ∧
    (t_rawPath t, pathItem) ∈ JS.entries (JS.prop "paths" spec) ∧
    t_method t ∈ METHODS ∧
    JS.truthy (JS.prop (t_method t) pathItem) = true ∧
    registeredFor t
      (baseNameOf asciiUpper (getSpecKey demo_URL_parse (t_specUrl t) spec)
                  (t_method t) (t_rawPath t) (JS.prop (t_method t) pathItem),
       operationOf t).
Proof.
  apply (createServer_sound asciiUpper demo_URL_parse demo_fetchSpec
           ["http://a/openapi.json"] [0]
           [ mkTool "k.x" "http://a/openapi.json" "get" "/p" "";
             mkTool "k.x-2" "http://a/openapi.json" "get" "/q" "" ]).
  - vm_compute. reflexivity.
  - apply list_elem_of_further, list_elem_of_here.
Defined.


Lemma createServer_one_tool_per_operation_witness :
  operationOf <$> [ mkTool "k.x" "http://a/openapi.json" "get" "/p" "";
                    mkTool "k.x-2" "http://a/openapi.json" "get" "/q" "" ]
  = snd <$> operations asciiUpper
              (loadSpecs demo_URL_parse demo_fetchSpec ["http://a/openapi.json"] [0]).
Proof.
  apply (createServer_one_tool_per_operation asciiUpper demo_URL_parse demo_fetchSpec
           ["http://a/openapi.json"] [0]).
  vm_compute. reflexivity.
Defined.

Lemma getSpecKey_policy_witness :
  getSpecKey demo_URL_parse "not a url" (JS.VObj [("info", JS.VObj [])])
  = slugify "not a url".
Proof.
  apply (proj2 (proj2 (getSpecKey_policy demo_URL_parse "not a url"
                         (JS.VObj [("info", JS.VObj [])])))); reflexivity.
Defined.

(** The key of the specification's scenarios: the title, then host and
    path without the known file name. *)
Example getSpecKey_examples :
  let parse := λ s, if String.eqb s "https://petstore3.swagger.io/api/v3/openapi.json"
                    then Some (mkURL "petstore3.swagger.io" "/api/v3/openapi.json" [] "https:")
                    else None in
  getSpecKey parse "https://petstore3.swagger.io/api/v3/openapi.json"
             (JS.VObj [("info", JS.VObj [("title", JS.VStr "Swagger Petstore - OpenAPI 3.0")])])
  = "swagger-petstore-openapi-3-0" ∧
  getSpecKey parse "https://petstore3.swagger.io/api/v3/openapi.json" (JS.VObj [])
  = "petstore3-swagger-io-api-v3" ∧
  getSpecKey parse "local file" (JS.VObj []) = "local-file".
Proof. split_and!; reflexivity. Qed.
